(** * opcua-websocket-bridge: the broadcast hub, the delivery loops,
      the upstream connector and the shutdown coordinator

    A shallow embedding of [opcua_webhmi_bridge.py] and of
    [opcua_webhmi_bridge/websocket.py], followed by the properties of the
    specification that concern them.

    Conventions.
    - Python objects that are shared by reference (the queues a [Hub] keeps in
      its set and that a handler reads) live in a store indexed by object
      identity; the hub's set holds identities.
    - A function that can raise returns a [result]; a function that mutates
      the hub and can raise returns its [result] with the hub it leaves.
    - Coroutines are functions from the answers of their environment (which
      of the awaited tasks completed, what an upstream attempt raised) to the
      trace of the calls they make and to the way they end. *)

From Stdlib Require Import String Ascii ZArith List Bool Lia Sorted.
From stdpp Require Import base option list sets gmap strings.
Import ListNotations.

Local Open Scope string_scope.
Local Open Scope list_scope.

(** ** Python values shared by all components *)

(** An exception object. [isinstance] only looks at the method resolution
    order of the object's class, so that is what the object carries, with the
    text of its arguments. *)
Record exc := Exc { exc_mro : list string; exc_args : string }.

Definition isinstance (e : exc) (cls : string) : bool :=
  existsb (String.eqb cls) (exc_mro e).

(** [isinstance(e, (c1, c2, ...))], which is also what [except (c1, c2, ...)]
    tests. *)
Definition isinstance_any (e : exc) (classes : list string) : bool :=
  existsb (isinstance e) classes.

Definition builtin (name : string) (bases : list string) (args : string) : exc :=
  Exc (name :: bases ++ ["BaseException"; "object"]) args.

Definition KeyError := builtin "KeyError" ["LookupError"; "Exception"].
Definition TypeError := builtin "TypeError" ["Exception"].
Definition AttributeError := builtin "AttributeError" ["Exception"].
Definition OSError := builtin "OSError" ["Exception"].
Definition ConnectionRefusedError :=
  builtin "ConnectionRefusedError" ["ConnectionError"; "OSError"; "Exception"].
Definition asyncio_TimeoutError := builtin "asyncio.TimeoutError" ["Exception"].
(** Python 3.8 (the interpreter the script asks for): a cancellation derives
    from [BaseException] only. *)
Definition asyncio_CancelledError := builtin "asyncio.CancelledError" [].
Definition asyncio_QueueEmpty := builtin "asyncio.QueueEmpty" ["Exception"].
Definition ConnectionClosed :=
  builtin "websockets.ConnectionClosed" ["InvalidState"; "WebSocketException"; "Exception"].

Inductive result (A : Type) : Type :=
| Ok (a : A)
| Raise (e : exc).
Arguments Ok {A} a.
Arguments Raise {A} e.

(** Truth value testing ([if x:], [not x]). *)
Class Truthy (A : Type) := truthy : A -> bool.

(** A [str] is true when it is not empty. *)
#[export] Instance str_truthy : Truthy string :=
  fun s => match s with EmptyString => false | String _ _ => true end.

(** [None] is false; any other object answers for itself. *)
#[export] Instance option_truthy {A} `{Truthy A} : Truthy (option A) :=
  fun o => match o with None => false | Some a => truthy a end.

(** ** SingleElemOverwriteQueue and Hub *)

(** The queue class is generic in the type of its items, and the hub only
    stores its messages and tests their truth value, so both are modelled
    for any type of message with a truth value. The messages of the program
    are [str]. *)
Section Pubsub.
Context {Msg : Type} `{Truthy Msg}.

(** The [_queue] attribute of a [SingleElemOverwriteQueue]: [None] or the
    stored item. *)
Local Abbreviation slot := (option Msg).

Definition _init : slot := None.

Definition _put (item : Msg) (q : slot) : slot := Some item.

Definition _get (q : slot) : slot * slot := (q, None).

(** The methods inherited from [asyncio.Queue]. [empty] is [not self._queue].
    The queue is always built without [maxsize], so [full] answers [False]
    and [put_nowait] never raises; its count of unfinished tasks is not
    read anywhere and is left out. *)
Definition empty (q : slot) : bool := negb (truthy q).

Definition full (q : slot) : bool := false.

Definition put_nowait (item : Msg) (q : slot) : slot :=
  if full q then q else _put item q.

Definition get_nowait (q : slot) : result (Msg * slot) :=
  if empty q then Raise (asyncio_QueueEmpty EmptyString)
  else match _get q with
       | (Some item, q') => Ok (item, q')
       | (None, _) => Raise (asyncio_QueueEmpty EmptyString) (* [empty None] holds *)
       end.

Record Hub := mkHub {
  _subscriptions : gset nat;
  _last_message : option Msg
}.

(** The hub and the queue objects, by identity. *)
Record world := mkWorld {
  hub : Hub;
  queues : gmap nat slot
}.

(** [Hub()] in a process that has built no queue yet. *)
Definition Hub_init : world := mkWorld (mkHub ∅ None) ∅.

(** [queue.put_nowait(item)] on the object [q]. *)
Definition put_nowait_at (item : Msg) (q : nat) (qs : gmap nat slot) : gmap nat slot :=
  <[q := put_nowait item (default _init (qs !! q))]> qs.

(** The test is [if self._last_message:], the truth value of the attribute,
    which is [None] until the first publish. *)
Definition add_subscription (subscription : nat) (w : world) : world :=
  let h := mkHub ({[subscription]} ∪ _subscriptions (hub w)) (_last_message (hub w)) in
  if truthy (_last_message h)
  then match _last_message h with
       | Some m => mkWorld h (put_nowait_at m subscription (queues w))
       | None => mkWorld h (queues w)
       end
  else mkWorld h (queues w).

(** [set.remove] raises [KeyError] when the element is absent. *)
Definition remove_subscription (subscription : nat) (w : world) : result unit * world :=
  if decide (subscription ∈ _subscriptions (hub w))
  then (Ok tt, mkWorld (mkHub (_subscriptions (hub w) ∖ {[subscription]})
                              (_last_message (hub w)))
                       (queues w))
  else (Raise (KeyError EmptyString), w).

Definition publish (message : Msg) (w : world) : world :=
  mkWorld (mkHub (_subscriptions (hub w)) (Some message))
          (foldr (put_nowait_at message) (queues w)
                 (elements (_subscriptions (hub w)))).

(** Entering [with subscription(hub) as queue]: a new queue object is built
    and registered; the body receives its identity. *)
Definition subscription_enter (w : world) : nat * world :=
  let queue := fresh (dom (queues w)) in
  (queue, add_subscription queue (mkWorld (hub w) (<[queue := _init]> (queues w)))).

(** Leaving the [with] block, on every path: the [finally] clause. *)
Definition subscription_exit (queue : nat) (w : world) : result unit * world :=
  remove_subscription queue w.

(** [await queue.get()], seen from the scheduler: the reader completes with
    the item when the queue is not [empty], and stays suspended ([None])
    while it is. *)
Definition get (q : nat) (w : world) : option (Msg * world) :=
  match get_nowait (default _init (queues w !! q)) with
  | Ok (item, q') => Some (item, mkWorld (hub w) (<[q := q']> (queues w)))
  | Raise _ => None
  end.

Definition publish_all (ms : list Msg) (w : world) : world :=
  fold_left (fun w m => publish m w) ms w.

(** What can happen to the hub between two suspension points: the
    connector publishes, the reader of a queue is scheduled, a connection
    enters its [with] block, a connection leaves it. *)
Inductive op : Type :=
| Publish (message : Msg)
| Get (q : nat)
| Enter
| Exit (q : nat).

(** The items the reader of the queue [c] receives, in order, while the
    hub goes through [ops]. A reader that finds its queue empty stays
    suspended and is scheduled again by a later [Get]. *)
Fixpoint run (c : nat) (ops : list op) (w : world) : list Msg * world :=
  match ops with
  | [] => ([], w)
  | Publish m :: ops' => run c ops' (publish m w)
  | Get q :: ops' =>
      match get q w with
      | Some (item, w') =>
          let (items, w'') := run c ops' w' in
          (if decide (q = c) then item :: items else items, w'')
      | None => run c ops' w
      end
  | Enter :: ops' => run c ops' (snd (subscription_enter w))
  | Exit q :: ops' => run c ops' (snd (subscription_exit q w))
  end.

Definition published (ops : list op) : list Msg :=
  flat_map (fun o => match o with Publish m => [m] | _ => [] end) ops.

(** What a queue holds, as a list: at most one item. *)
Definition slot_items (o : option (option Msg)) : list Msg :=
  match o with Some (Some m) => [m] | _ => [] end.

(** The queue of every subscriber exists and holds nothing or the hub's
    last message. *)
Definition empty_or_latest (w : world) : Prop :=
  forall c, c ∈ _subscriptions (hub w) ->
    queues w !! c = Some None \/ queues w !! c = Some (_last_message (hub w)).

End Pubsub.

(** ** OPCUAEncoder and the subscription handler *)

(** The values a notification can carry, as far as [json.dumps] tells them
    apart: what it encodes natively, an object with a [ua_types] attribute
    (the list of its field names and types) and its attributes, and any other
    object, named by its class. *)
#[warnings="-register-all"]
Inductive pyobj : Type :=
| PyNone
| PyBool (b : bool)
| PyInt (z : Z)
| PyFloat (repr : string)
| PyStr (s : string)
| PyList (items : list pyobj)
| PyDict (items : list (string * pyobj))
| PyStruct (ua_types : list (string * string)) (attrs : list (string * pyobj))
| PyObject (cls : string).

(** The document the encoder builds before it is written out as text. *)
#[warnings="-register-all"]
Inductive json : Type :=
| JNull
| JBool (b : bool)
| JInt (z : Z)
| JFloat (repr : string)
| JString (s : string)
| JArray (items : list json)
| JObject (members : list (string * json)).

Definition getattr {V} (attrs : list (string * V)) (name : string) : result V :=
  match List.find (fun kv => String.eqb (fst kv) name) attrs with
  | Some kv => Ok (snd kv)
  | None => Raise (AttributeError name)
  end.

(** [d[k] = v] on a dict kept in insertion order. *)
Fixpoint dict_set {V} (k : string) (v : V) (d : list (string * V)) : list (string * V) :=
  match d with
  | [] => [(k, v)]
  | (k', v') :: d' =>
      if String.eqb k k' then (k, v) :: d' else (k', v') :: dict_set k v d'
  end.

(** [{elem: getattr(o, elem) for elem, _ in o.ua_types}], started from the
    dict [d]. *)
Fixpoint comprehension {V} (ua_types : list (string * string))
    (attrs : list (string * V)) (d : list (string * V)) : result (list (string * V)) :=
  match ua_types with
  | [] => Ok d
  | (elem, _) :: rest =>
      match getattr attrs elem with
      | Ok v => comprehension rest attrs (dict_set elem v d)
      | Raise e => Raise e
      end
  end.

(** The encoder class; its one method. The last lines are
    [json.JSONEncoder.default], which raises for every object. *)
Module OPCUAEncoder.
Definition default (o : pyobj) : result pyobj :=
  match o with
  | PyStruct ua_types attrs =>
      match comprehension ua_types attrs [] with
      | Ok d => Ok (PyDict d)
      | Raise e => Raise e
      end
  | PyObject cls => Raise (TypeError cls)
  | _ => Raise (TypeError EmptyString)
  end.
End OPCUAEncoder.

(** The first error of a list of encodings, or all their documents. *)
Fixpoint collect {A} (rs : list (result A)) : result (list A) :=
  match rs with
  | [] => Ok []
  | Ok a :: rest =>
      match collect rest with Ok l => Ok (a :: l) | Raise e => Raise e end
  | Raise e :: _ => Raise e
  end.

Definition collect_members {A} (rs : list (string * result A)) : result (list (string * A)) :=
  match collect (map snd rs) with
  | Ok l => Ok (combine (map fst rs) l)
  | Raise e => Raise e
  end.

Definition result_map {A B} (f : A -> B) (r : result A) : result B :=
  match r with Ok a => Ok (f a) | Raise e => Raise e end.

(** The values of a dict or the attributes of an object, each through [f]. *)
Definition members {A B} (f : A -> B) (l : list (string * A)) : list (string * B) :=
  map (fun kv => (fst kv, f (snd kv))) l.

(** The encoder of [json.dumps(..., cls=OPCUAEncoder)]: native values are
    encoded as they are, any other object through [default] and then again.
    The attributes of a structure are encoded where they stand, so that the
    recursion is structural; [encode_PyStruct] below shows that this is
    [default] followed by the encoding of the dict it returns. *)
Fixpoint encode (o : pyobj) : result json :=
  match o with
  | PyNone => Ok JNull
  | PyBool b => Ok (JBool b)
  | PyInt z => Ok (JInt z)
  | PyFloat r => Ok (JFloat r)
  | PyStr s => Ok (JString s)
  | PyList items => result_map JArray (collect (map encode items))
  | PyDict items => result_map JObject (collect_members (members encode items))
  | PyStruct ua_types attrs =>
      match comprehension ua_types (members encode attrs) [] with
      | Ok d => result_map JObject (collect_members d)
      | Raise e => Raise e
      end
  | PyObject cls => Raise (TypeError cls)
  end.

(** [str.replace(old, new)] for a one-character [old] and an empty [new]. *)
Fixpoint remove_char (old : ascii) (s : string) : string :=
  match s with
  | EmptyString => EmptyString
  | String c s' =>
      if Ascii.eqb c old then remove_char old s' else String c (remove_char old s')
  end.

Definition double_quote : ascii := ascii_of_nat 34.

Section Encoder.
(** The text [json.dumps] writes for a document (the standard library's
    serialisation, which cannot fail once the document is built). *)
Variable json_text : json -> string.

Definition json_dumps (o : pyobj) : result string :=
  result_map json_text (encode o).

(** [OPCUASubscriptionHandler.datachange_notification]; [identifier] is
    [node.nodeid.Identifier]. The argument of [publish] is evaluated first. *)
Definition datachange_notification (identifier : string) (val : pyobj)
    (w : @world string) : result unit * @world string :=
  let node_id := remove_char double_quote identifier in
  match json_dumps (PyDict [("type", PyStr "opc_data_change");
                            ("node", PyStr node_id);
                            ("data", val)]) with
  | Ok message => (Ok tt, publish message w)
  | Raise e => (Raise e, w)
  end.
End Encoder.

(** What the encoder meets on its way through a value. [reaches_object]: an
    object that is neither native nor a structure; [attrs_present]: every
    structure it goes through has the attributes its [ua_types] names. *)
Definition flag (otherwise : bool) (r : result bool) : bool :=
  match r with Ok b => b | Raise _ => otherwise end.

Fixpoint reaches_object (o : pyobj) : bool :=
  match o with
  | PyList items => existsb reaches_object items
  | PyDict items => existsb snd (members reaches_object items)
  | PyStruct ua_types attrs =>
      existsb (fun t => flag false (getattr (members reaches_object attrs) (fst t))) ua_types
  | PyObject _ => true
  | _ => false
  end.

Fixpoint attrs_present (o : pyobj) : bool :=
  match o with
  | PyList items => forallb attrs_present items
  | PyDict items => forallb snd (members attrs_present items)
  | PyStruct ua_types attrs =>
      forallb (fun t => flag false (getattr (members attrs_present attrs) (fst t))) ua_types
  | _ => true
  end.

Definition is_ok {A} (r : result A) : bool :=
  match r with Ok _ => true | Raise _ => false end.


(** A result that, when it is an error, is a [TypeError]. *)
Definition ok_or_TypeError {A} (r : result A) : Prop :=
  match r with Ok _ => True | Raise e => exists cls, e = TypeError cls end.

Section pyobj_induction.
Variable P : pyobj -> Prop.
Hypothesis HNone : P PyNone.
Hypothesis HBool : forall b, P (PyBool b).
Hypothesis HInt : forall z, P (PyInt z).
Hypothesis HFloat : forall r, P (PyFloat r).
Hypothesis HStr : forall s, P (PyStr s).
Hypothesis HList : forall items, Forall P items -> P (PyList items).
Hypothesis HDict : forall items, Forall (fun kv => P (snd kv)) items -> P (PyDict items).
Hypothesis HStruct : forall ua_types attrs,
  Forall (fun kv => P (snd kv)) attrs -> P (PyStruct ua_types attrs).
Hypothesis HObject : forall cls, P (PyObject cls).

Fixpoint pyobj_nested_ind (o : pyobj) : P o :=
  match o with
  | PyNone => HNone
  | PyBool b => HBool b
  | PyInt z => HInt z
  | PyFloat r => HFloat r
  | PyStr s => HStr s
  | PyList items =>
      HList items
        ((fix all (l : list pyobj) : Forall P l :=
            match l with
            | [] => @List.Forall_nil _ P
            | x :: l' => @List.Forall_cons _ P x l' (pyobj_nested_ind x) (all l')
            end) items)
  | PyDict items =>
      HDict items
        ((fix all (l : list (string * pyobj)) : Forall (fun kv => P (snd kv)) l :=
            match l with
            | [] => @List.Forall_nil _ _
            | kv :: l' => @List.Forall_cons _ _ kv l' (pyobj_nested_ind (snd kv)) (all l')
            end) items)
  | PyStruct ua_types attrs =>
      HStruct ua_types attrs
        ((fix all (l : list (string * pyobj)) : Forall (fun kv => P (snd kv)) l :=
            match l with
            | [] => @List.Forall_nil _ _
            | kv :: l' => @List.Forall_cons _ _ kv l' (pyobj_nested_ind (snd kv)) (all l')
            end) attrs)
  | PyObject cls => HObject cls
  end.
End pyobj_induction.

(** What the encoder does with a value whose structures have their
    attributes: it fails exactly when it reaches an object that is neither
    native nor a structure, and then with a [TypeError]. *)
Definition encodes_or_TypeError (o : pyobj) : Prop :=
  attrs_present o = true ->
  ok_or_TypeError (encode o) /\ is_ok (encode o) = negb (reaches_object o).

(** ** opcua_task *)

Definition SIMATIC_NAMESPACE_URI : string := "http://www.siemens.com/simatic-s7-opcua".

(** What the task asks of its environment. *)
Inductive upstream_call : Type :=
| LogRetry (retry_delay : Z)
| Sleep (seconds : Z)
| NewClient (url : string)
| Connect
| GetNamespaceIndex (uri : string)
| GetChild (ns : Z) (name : string)
| LoadTypeDefinitions
| CreateSubscription (period : Z)
| SubscribeDataChange (ns : Z) (node : string)
| GetDataValue
| Disconnect
| LogClientError (e : exc).

(** One pass through the [try] block, as the environment decides it: the
    namespace index the server answers, how many awaited calls complete
    before one raises, and the exception that leaves the
    [async with client:] statement. When the connection itself fails
    ([completed = 0]) that is the exception of [__aenter__]; otherwise
    [client.__aexit__] is awaited on the way out, and the exception that
    leaves is the one of the failing call or the one [__aexit__] raises in
    its place. The block has no other way out: its last statement is a
    [while True] without [break]. *)
Record attempt := Attempt {
  namespace_index : Z;
  completed : nat;
  raised : exc
}.

(** The awaited calls of the block, in order: the six of the set-up, then
    the health check, for ever. *)
Definition awaited (ns : Z) (monitor_node : string) (i : nat) : upstream_call :=
  match i with
  | 0 => Connect
  | 1 => GetNamespaceIndex SIMATIC_NAMESPACE_URI
  | 2 => GetChild ns "SimaticStructures"
  | 3 => LoadTypeDefinitions
  | 4 => CreateSubscription 1000
  | 5 => SubscribeDataChange ns monitor_node
  | _ => if Nat.even i then Sleep 1 else GetDataValue
  end.

(** The calls of one pass: the awaited calls up to the one that raises,
    then the exit of [async with client:], which disconnects a client that
    had connected. *)
Definition attempt_calls (monitor_node : string) (a : attempt) : list upstream_call :=
  map (awaited (namespace_index a) monitor_node) (seq 0 (S (completed a)))
  ++ match completed a with 0 => [] | S _ => [Disconnect] end.

(** How a coroutine stands once the answers of its environment are used up:
    still suspended, returned, or left by an exception. *)
Inductive ending : Type :=
| Suspended
| Returned
| Raised (e : exc).

(** The errors of the network and timeout class. *)
Definition retryable (e : exc) : bool :=
  isinstance e "OSError" || isinstance e "asyncio.TimeoutError".

Definition is_connect (c : upstream_call) : bool :=
  match c with Connect => true | _ => false end.
Definition is_log_retry (c : upstream_call) : bool :=
  match c with LogRetry _ => true | _ => false end.

Section Connector.
Variables (server_url monitor_node : string) (retry_delay : Z).

(** One turn of the outer [while True], entered with the local variable
    [retrying]: the calls made and either the next value of [retrying] or
    the exception that leaves the function. *)
Definition opcua_iteration (retrying : bool) (a : attempt)
  : list upstream_call * result bool :=
  let before := if retrying then [LogRetry retry_delay; Sleep retry_delay] else [] in
  let retrying := false in
  let calls := before ++ NewClient server_url :: attempt_calls monitor_node a in
  if isinstance_any (raised a) ["OSError"; "asyncio.TimeoutError"]
  then (calls ++ [LogClientError (raised a)], Ok true)
  else (calls, Raise (raised a)).

Fixpoint opcua_loop (retrying : bool) (attempts : list attempt)
  : list upstream_call * ending :=
  match attempts with
  | [] => ([], Suspended)
  | a :: rest =>
      match opcua_iteration retrying a with
      | (calls, Ok retrying') =>
          let (calls', e) := opcua_loop retrying' rest in (calls ++ calls', e)
      | (calls, Raise e) => (calls, Raised e)
      end
  end.

Definition opcua_task (attempts : list attempt) : list upstream_call * ending :=
  opcua_loop false attempts.

(** The calls of one attempt that fails with a retryable error. *)
Definition failed_attempt (a : attempt) : list upstream_call :=
  NewClient server_url :: attempt_calls monitor_node a ++ [LogClientError (raised a)].

Definition retry (a : attempt) : list upstream_call :=
  LogRetry retry_delay :: Sleep retry_delay :: failed_attempt a.
End Connector.

(** ** The notifications of a session *)

Section Delivery.
Variable json_text : json -> string.


End Delivery.

(** ** The connection handlers *)

(** The tasks of one connection: its [n]-th [queue.get()] and
    [websocket.wait_closed()]. *)
Inductive task : Type :=
| task_msg_wait (n : nat)
| task_client_disconnect.

Inductive handler_call : Type :=
| LogConnected (client_address : string) (address_from : option string)
| Subscribe
| CreateTask (t : task)
| Wait (t1 t2 : task)
| Send (text : string)
| LogDisconnected (client_address : string) (address_from : option string)
| Cancel (t : task)
| Await (t : task)
| Unsubscribe.

(** What [asyncio.wait(..., FIRST_COMPLETED)] returns, and what the send
    that may follow does ([sent = Some e]: [websocket.send] raises [e]).
    When both tasks are done the [for] loop meets them in either order.
    [HandlerCancelled]: the handler itself is cancelled while it waits. *)
Inductive completion : Type :=
| MsgDone (item : string) (sent : option exc)
| CloseDone
| BothDone (item : string) (sent : option exc) (msg_first : bool)
| HandlerCancelled.

(** Awaiting a task that was just cancelled while it waited in
    [queue.get()]: the cancellation comes back to the awaiter. *)
Definition await_cancelled : result unit := Raise (asyncio_CancelledError EmptyString).

Record websocket := WebSocket {
  request_headers : gmap string string;
  remote_address : string * Z
}.

(** [get_client_address]: the first of the two headers that is present. *)
Definition get_client_address (ws : websocket) : string * string :=
  match request_headers ws !! "X-Real-Ip" with
  | Some v => (v, "X-Real-Ip")
  | None =>
      match request_headers ws !! "X-Forwarded-For" with
      | Some v => (v, "X-Forwarded-For")
      | None => (fst (remote_address ws), "socket peer name")
      end
  end.

(** The branch [task is task_msg_wait] of the [for] loop, the same in both
    handlers: send the result of the [n]-th [get] and start the next one. *)
Definition deliver_message (n : nat) (item : string) (sent : option exc)
  : list handler_call * result nat :=
  match sent with
  | None => ([Send item; CreateTask (task_msg_wait (S n))], Ok (S n))
  | Some e => ([Send item], Raise e)
  end.

(** The loop of [websockets_handler], entered with the [n]-th [get] as
    [task_msg_wait]. *)
Fixpoint ws_loop (client_address : string) (n : nat) (events : list completion)
  : list handler_call * ending :=
  let wait := Wait (task_msg_wait n) task_client_disconnect in
  let disconnected := LogDisconnected client_address None in
  match events with
  | [] => ([wait], Suspended)
  | MsgDone item sent :: events' =>
      match deliver_message n item sent with
      | (calls, Ok n') =>
          let (calls', e) := ws_loop client_address n' events' in
          (wait :: calls ++ calls', e)
      | (calls, Raise e) => (wait :: calls, Raised e)
      end
  | CloseDone :: _ =>
      (* must_shutdown; pending = {task_msg_wait} *)
      match await_cancelled with
      | Ok _ => ([wait; disconnected; Cancel (task_msg_wait n); Await (task_msg_wait n)],
                 Returned)
      | Raise e => ([wait; disconnected; Cancel (task_msg_wait n); Await (task_msg_wait n)],
                    Raised e)
      end
  | BothDone item sent true :: _ =>
      match deliver_message n item sent with
      | (calls, Ok _) => (wait :: calls ++ [disconnected], Returned)
      | (calls, Raise e) => (wait :: calls, Raised e)
      end
  | BothDone item sent false :: _ =>
      match deliver_message n item sent with
      | (calls, Ok _) => (wait :: disconnected :: calls, Returned)
      | (calls, Raise e) => (wait :: disconnected :: calls, Raised e)
      end
  | HandlerCancelled :: _ => ([wait], Raised (asyncio_CancelledError EmptyString))
  end.

(** [with subscription(hub) as queue: body]: the [finally] clause runs when
    the body is left, by its end or by an exception. *)
Definition with_subscription (body : list handler_call * ending)
  : list handler_call * ending :=
  match snd body with
  | Suspended => (Subscribe :: fst body, Suspended)
  | e => (Subscribe :: fst body ++ [Unsubscribe], e)
  end.

Definition websockets_handler (ws : websocket) (events : list completion)
  : list handler_call * ending :=
  let client_address := fst (remote_address ws) in
  let (calls, e) :=
    with_subscription
      (let (calls, e) := ws_loop client_address 0 events in
       (CreateTask (task_msg_wait 0) :: CreateTask task_client_disconnect :: calls, e)) in
  (LogConnected client_address None :: calls, e).

(** Modelled from the spec: [hub.subscribe()] of the absent [pubsub] module,
    which [_handler] enters with [with]. It subscribes a new channel and
    returns a handle whose release triggers unsubscribe, on every exit. *)
Definition with_hub_subscribe (body : list handler_call * ending)
  : list handler_call * ending :=
  match snd body with
  | Suspended => (Subscribe :: fst body, Suspended)
  | e => (Subscribe :: fst body ++ [Unsubscribe], e)
  end.

(** The loop of [_handler]; [done_task.result()] is sent as it is. *)
Fixpoint _handler_loop (client_address address_from : string) (n : nat)
    (events : list completion) : list handler_call * ending :=
  let wait := Wait (task_msg_wait n) task_client_disconnect in
  let disconnected := LogDisconnected client_address (Some address_from) in
  match events with
  | [] => ([wait], Suspended)
  | MsgDone item sent :: events' =>
      match deliver_message n item sent with
      | (calls, Ok n') =>
          let (calls', e) := _handler_loop client_address address_from n' events' in
          (wait :: calls ++ calls', e)
      | (calls, Raise e) => (wait :: calls, Raised e)
      end
  | CloseDone :: _ =>
      (* must_stop; pending = {task_msg_wait} *)
      match await_cancelled with
      | Ok _ => ([wait; disconnected; Cancel (task_msg_wait n); Await (task_msg_wait n)],
                 Returned)
      | Raise e =>
          if isinstance e "asyncio.CancelledError"
          then ([wait; disconnected; Cancel (task_msg_wait n); Await (task_msg_wait n)],
                Returned)
          else ([wait; disconnected; Cancel (task_msg_wait n); Await (task_msg_wait n)],
                Raised e)
      end
  | BothDone item sent true :: _ =>
      match deliver_message n item sent with
      | (calls, Ok _) => (wait :: calls ++ [disconnected], Returned)
      | (calls, Raise e) => (wait :: calls, Raised e)
      end
  | BothDone item sent false :: _ =>
      match deliver_message n item sent with
      | (calls, Ok _) => (wait :: disconnected :: calls, Returned)
      | (calls, Raise e) => (wait :: disconnected :: calls, Raised e)
      end
  | HandlerCancelled :: _ => ([wait], Raised (asyncio_CancelledError EmptyString))
  end.

Definition _handler (ws : websocket) (events : list completion)
  : list handler_call * ending :=
  let (client_address, address_from) := get_client_address ws in
  let (calls, e) :=
    with_hub_subscribe
      (let (calls, e) := _handler_loop client_address address_from 0 events in
       (CreateTask (task_msg_wait 0) :: CreateTask task_client_disconnect :: calls, e)) in
  (LogConnected client_address (Some address_from) :: calls, e).

(** The calls of a handler, by kind. *)
Definition is_send (c : handler_call) : bool :=
  match c with Send _ => true | _ => false end.
Definition is_cancel (c : handler_call) : bool :=
  match c with Cancel _ => true | _ => false end.
Definition is_await (c : handler_call) : bool :=
  match c with Await _ => true | _ => false end.
Definition is_unsubscribe (c : handler_call) : bool :=
  match c with Unsubscribe => true | _ => false end.
Definition is_subscribe (c : handler_call) : bool :=
  match c with Subscribe => true | _ => false end.
Definition is_log (c : handler_call) : bool :=
  match c with LogConnected _ _ | LogDisconnected _ _ => true | _ => false end.

(** The calls of a handler but for its log lines. *)
Definition effects (calls : list handler_call) : list handler_call :=
  List.filter (fun c => negb (is_log c)) calls.

(** The turns of the loop that deliver [items], from the [n]-th [get] on. *)
Fixpoint deliveries (n : nat) (items : list string) : list handler_call :=
  match items with
  | [] => []
  | item :: items' =>
      Wait (task_msg_wait n) task_client_disconnect
      :: Send item :: CreateTask (task_msg_wait (S n)) :: deliveries (S n) items'
  end.

(** The turn of the loop that finds the connection closed and the [n]-th
    [get] pending. *)
Definition teardown (disconnected : handler_call) (n : nat) : list handler_call :=
  [Wait (task_msg_wait n) task_client_disconnect; disconnected;
   Cancel (task_msg_wait n); Await (task_msg_wait n)].

Definition delivered (items : list string) : list completion :=
  map (fun item => MsgDone item None) items.

(** ** shutdown *)

(** An element of what [asyncio.gather] with [return_exceptions=True]
    returns: the value a task returned, or the exception it ended with. *)
Inductive gathered : Type :=
| Value (v : pyobj)
| Exception (e : exc).

Inductive shutdown_call : Type :=
| LogSignal (name : string)
| CancelTask (t : nat)
| LogWaiting (n : nat)
| Gather (ts : list nat)
| LogShutdownError (r : gathered)
| LoopStop.

(** The test of the last loop of [shutdown]. *)
Definition is_shutdown_error (r : gathered) : bool :=
  match r with
  | Value _ => false
  | Exception e => negb (isinstance e "asyncio.CancelledError") && isinstance e "Exception"
  end.

(** [shutdown]: [sig] is the name of the signal, when there is one; [tasks]
    are all the tasks but the current one; [outcome] is how each of them
    ends once it is cancelled and awaited. *)
Definition shutdown (sig : option string) (tasks : list nat) (outcome : nat -> gathered)
  : list shutdown_call :=
  let received := match sig with Some name => [LogSignal name] | None => [] end in
  let results := map outcome tasks in
  received
  ++ map CancelTask tasks
  ++ [LogWaiting (length tasks); Gather tasks]
  ++ map LogShutdownError (List.filter is_shutdown_error results)
  ++ [LoopStop].

(** * Properties *)

(** ** The hub *)

Section PubsubFacts.
Context {Msg : Type} `{Truthy Msg}.
Implicit Types (w : @world Msg) (m : Msg) (c q : nat).

Lemma truthy_Some m : truthy (Some m) = truthy m.
Proof. reflexivity. Qed.

Lemma foldr_put_lookup m c (l : list nat) (qs : gmap nat (option Msg)) :
  foldr (put_nowait_at m) qs l !! c
  = if decide (c ∈ l) then Some (Some m) else qs !! c.
Proof.
  induction l as [|q l IH]; simpl.
  - destruct (decide (c ∈ @nil nat)) as [Hin|Hin]; [by apply elem_of_nil in Hin | done].
  - unfold put_nowait_at at 1. destruct (decide (q = c)) as [->|Hne].
    + rewrite lookup_insert_eq. rewrite decide_True by left. done.
    + rewrite lookup_insert_ne by done. rewrite IH.
      destruct (decide (c ∈ l)) as [Hin|Hin].
      * rewrite decide_True by (by right). done.
      * rewrite decide_False; [done|]. intros [?|?]%elem_of_cons; congruence.
Qed.

Lemma publish_subscriptions m w :
  _subscriptions (hub (publish m w)) = _subscriptions (hub w).
Proof. done. Qed.

Lemma publish_last_message m w : _last_message (hub (publish m w)) = Some m.
Proof. done. Qed.

Lemma publish_lookup m w c :
  queues (publish m w) !! c
  = if decide (c ∈ _subscriptions (hub w)) then Some (Some m) else queues w !! c.
Proof.
  unfold publish; simpl. rewrite foldr_put_lookup.
  destruct (decide (c ∈ elements (_subscriptions (hub w)))) as [Hin|Hin];
    [rewrite decide_True | rewrite decide_False]; try done;
    by rewrite <- elem_of_elements.
Qed.

Lemma publish_dom m w c : c ∈ dom (queues w) -> c ∈ dom (queues (publish m w)).
Proof.
  rewrite !elem_of_dom, publish_lookup. case_decide; [by eexists | done].
Qed.

Lemma publish_all_app ms ms' w :
  publish_all (ms ++ ms') w = publish_all ms' (publish_all ms w).
Proof. apply fold_left_app. Qed.

Lemma publish_all_subscriptions ms w :
  _subscriptions (hub (publish_all ms w)) = _subscriptions (hub w).
Proof. revert w; induction ms as [|m ms IH]; intros w; [done|]. simpl. by rewrite IH. Qed.

Lemma get_Some_truthy q w :
  forall m, queues w !! q = Some (Some m) -> truthy m = true ->
  get q w = Some (m, mkWorld (hub w) (<[q := None]> (queues w))).
Proof.
  intros m Hq Hm. unfold get, get_nowait, empty. rewrite Hq. simpl.
  by rewrite truthy_Some, Hm.
Qed.

Lemma get_None_falsy q w :
  truthy (default _init (queues w !! q)) = false -> get q w = None.
Proof. intros Hq. unfold get, get_nowait, empty. by rewrite Hq. Qed.

(** A reader only ever receives what its queue holds. *)
Lemma get_inv q w item w' :
  get q w = Some (item, w') ->
  queues w !! q = Some (Some item) /\ truthy item = true
  /\ w' = mkWorld (hub w) (<[q := None]> (queues w)).
Proof.
  unfold get, get_nowait, empty. destruct (queues w !! q) as [[m|]|] eqn:Hq; simpl;
    try discriminate.
  rewrite truthy_Some. destruct (truthy m) eqn:Hm; simpl; [|discriminate].
  intros [= <- <-]. done.
Qed.

(** *** Entering a subscription *)

Lemma subscription_enter_fresh w : fst (subscription_enter w) ∉ dom (queues w).
Proof. simpl. apply is_fresh. Qed.

Lemma subscription_enter_hub w :
  hub (snd (subscription_enter w))
  = mkHub ({[fst (subscription_enter w)]} ∪ _subscriptions (hub w))
          (_last_message (hub w)).
Proof.
  unfold subscription_enter, add_subscription; simpl.
  destruct (_last_message (hub w)) as [m|]; simpl; [|done].
  rewrite truthy_Some. by destruct (truthy m).
Qed.

(** The new queue holds the last message when that message is true, and
    nothing otherwise; the other queues are as they were. *)
Lemma subscription_enter_lookup w q :
  queues (snd (subscription_enter w)) !! q
  = if decide (q = fst (subscription_enter w))
    then Some (if truthy (_last_message (hub w)) then _last_message (hub w) else None)
    else queues w !! q.
Proof.
  unfold subscription_enter, add_subscription; simpl.
  set (c := fresh (dom (queues w))).
  destruct (_last_message (hub w)) as [m|] eqn:Hlast; simpl.
  - rewrite !truthy_Some. destruct (truthy m); simpl.
    + unfold put_nowait_at. case_decide as Hq.
      * subst q. by rewrite lookup_insert_eq.
      * by rewrite !lookup_insert_ne.
    + case_decide as Hq; [subst q; by rewrite lookup_insert_eq|].
      by rewrite lookup_insert_ne.
  - case_decide as Hq; [subst q; by rewrite lookup_insert_eq|].
    by rewrite lookup_insert_ne.
Qed.

Lemma subscription_enter_dom w q :
  q ∈ dom (queues w) -> q ∈ dom (queues (snd (subscription_enter w))).
Proof.
  intros Hq. apply elem_of_dom. rewrite subscription_enter_lookup.
  case_decide; [by eexists|]. by apply elem_of_dom.
Qed.

(** *** Reading after a burst of publishes *)

Lemma publish_all_snoc ms m w :
  publish_all (ms ++ [m]) w = publish m (publish_all ms w).
Proof. by rewrite publish_all_app. Qed.

Lemma publish_all_snoc_lookup ms m w c :
  c ∈ _subscriptions (hub w) ->
  queues (publish_all (ms ++ [m]) w) !! c = Some (Some m).
Proof.
  intros Hc. rewrite publish_all_snoc, publish_lookup.
  rewrite decide_True; [done|]. by rewrite publish_all_subscriptions.
Qed.

Lemma publish_all_snoc_last_message ms m w :
  _last_message (hub (publish_all (ms ++ [m]) w)) = Some m.
Proof. by rewrite publish_all_snoc. Qed.

(** A burst whose last message is true: the next read returns that
    message and empties the queue. *)
Lemma burst_last_wins ms m w c :
  c ∈ _subscriptions (hub w) -> truthy m = true ->
  get c (publish_all (ms ++ [m]) w)
  = Some (m, mkWorld (hub (publish_all (ms ++ [m]) w))
                     (<[c := None]> (queues (publish_all (ms ++ [m]) w)))).
Proof.
  intros Hc Hm. apply get_Some_truthy; [|done]. by apply publish_all_snoc_lookup.
Qed.

(** A channel that subscribes after a publish of a true message reads that
    message first. *)
Lemma first_read_after_publish ms m w :
  truthy m = true ->
  let w1 := publish_all (ms ++ [m]) w in
  get (fst (subscription_enter w1)) (snd (subscription_enter w1))
  = Some (m, mkWorld (hub (snd (subscription_enter w1)))
               (<[fst (subscription_enter w1) := None]>
                  (queues (snd (subscription_enter w1))))).
Proof.
  intros Hm w1. apply get_Some_truthy; [|done].
  rewrite subscription_enter_lookup, decide_True by done.
  unfold w1. rewrite publish_all_snoc_last_message.
  by rewrite truthy_Some, Hm.
Qed.

(** *** Order of delivery *)

Lemma run_sublist c ops : forall w,
  c ∈ dom (queues w) ->
  fst (run c ops w) `sublist_of` slot_items (queues w !! c) ++ published ops.
Proof.
  induction ops as [|o ops IH]; intros w Hc; simpl.
  - apply sublist_nil_l.
  - destruct o as [m|q| |q]; simpl.
    + (* Publish *)
      specialize (IH (publish m w) (publish_dom m w c Hc)).
      rewrite publish_lookup in IH. case_decide.
      * by apply sublist_inserts_l.
      * etrans; [exact IH|]. apply sublist_app; [done|]. by apply sublist_cons.
    + (* Get *)
      destruct (get q w) as [[item w']|] eqn:Hget; [|by apply IH].
      apply get_inv in Hget as (Hq & _ & ->).
      specialize (IH (mkWorld (hub w) (<[q:=None]> (queues w)))).
      simpl in IH.
      destruct (run c ops (mkWorld (hub w) (<[q:=None]> (queues w)))) as [items w''].
      simpl in *. case_decide as Hqc.
      * subst q. rewrite Hq. simpl. apply sublist_skip.
        rewrite lookup_insert_eq in IH. apply IH.
        apply elem_of_dom. rewrite lookup_insert_eq. by eexists.
      * rewrite lookup_insert_ne in IH by done. apply IH.
        apply elem_of_dom. rewrite lookup_insert_ne by done. by apply elem_of_dom.
    + (* Enter *)
      specialize (IH _ (subscription_enter_dom w c Hc)).
      rewrite subscription_enter_lookup in IH. case_decide as Hfresh; [|done].
      exfalso. apply (subscription_enter_fresh w). by rewrite <- Hfresh.
    + (* Exit *)
      unfold subscription_exit, remove_subscription.
      case_decide; simpl; [|by apply IH]. by apply (IH (mkWorld _ (queues w))).
Qed.

Lemma StronglySorted_sublist {A} (R : A -> A -> Prop) (l k : list A) :
  l `sublist_of` k -> StronglySorted R k -> StronglySorted R l.
Proof.
  induction 1 as [|x l k Hlk IH|x l k Hlk IH]; intros Hk.
  - constructor.
  - apply StronglySorted_inv in Hk as [Hk Hx]. constructor; [by apply IH|].
    rewrite List.Forall_forall in *. intros y Hy. apply Hx.
    apply list_elem_of_In. eapply elem_of_sublist; [|exact Hlk]. by apply list_elem_of_In.
  - apply StronglySorted_inv in Hk as [Hk _]. by apply IH.
Qed.

Lemma sublist_map {A B} (f : A -> B) (l k : list A) :
  l `sublist_of` k -> map f l `sublist_of` map f k.
Proof. induction 1; simpl; by constructor. Qed.

(** What a connection receives, from its subscription on, is a
    subsequence of what was published: the message published last before
    it subscribed, then the messages published since. *)
Lemma delivered_sublist_published w ops :
  fst (run (fst (subscription_enter w)) ops (snd (subscription_enter w)))
  `sublist_of` option_list (_last_message (hub w)) ++ published ops.
Proof.
  etrans.
  - apply run_sublist. apply elem_of_dom.
    rewrite subscription_enter_lookup, decide_True by done. by eexists.
  - rewrite subscription_enter_lookup, decide_True by done.
    apply sublist_app; [|done].
    destruct (_last_message (hub w)) as [m|]; simpl; [|done].
    rewrite truthy_Some. destruct (truthy m); simpl; [done|].
    apply sublist_nil_l.
Qed.

(** C3. For every interleaving of publishes, reads and subscriptions of
    other connections that follows the subscription of a channel: when the
    messages carry sequence numbers that grow with the order of
    publication, the numbers of the messages the channel's reader
    receives grow strictly, so no read returns a message published
    before one that an earlier read returned; messages may be skipped. *)
Theorem delivery_monotonically_fresh (stamp : Msg -> nat) w ops :
  StronglySorted lt (map stamp (option_list (_last_message (hub w)) ++ published ops)) ->
  StronglySorted lt
    (map stamp (fst (run (fst (subscription_enter w)) ops (snd (subscription_enter w))))).
Proof.
  apply StronglySorted_sublist, sublist_map, delivered_sublist_published.
Qed.

(** *** Unsubscribing *)

(** C8, amended. [remove_subscription] on a subscribed channel removes it
    from the subscriber set and leaves the rest of the hub as it was; a
    second call on the same channel raises [KeyError] and leaves the hub
    as the first call left it. *)
Theorem remove_subscription_then_KeyError w q :
  q ∈ _subscriptions (hub w) ->
  let w1 := snd (remove_subscription q w) in
  fst (remove_subscription q w) = Ok tt
  /\ _subscriptions (hub w1) = _subscriptions (hub w) ∖ {[q]}
  /\ _last_message (hub w1) = _last_message (hub w)
  /\ queues w1 = queues w
  /\ remove_subscription q w1 = (Raise (KeyError EmptyString), w1).
Proof.
  intros Hq w1. unfold w1, remove_subscription. rewrite decide_True by done. simpl.
  repeat split. rewrite decide_False; [done|]. simpl.
  intros [_ Hn]%elem_of_difference. apply Hn. by apply elem_of_singleton.
Qed.

End PubsubFacts.

(** *** The hub of the program: messages are [str] *)

(** The first connection of a process subscribes after two publishes and
    reads the second message. *)
Example subscribe_after_two_publishes :
  let w := publish_all ["a"; "b"] Hub_init in
  fst (subscription_enter w) = 0
  /\ fst <$> get 0 (snd (subscription_enter w)) = Some "b".
Proof. vm_compute. done. Qed.

(** Two subscribers; each message reaches both queues, and a reader that
    was not scheduled between two publishes sees the second only. *)
Example fan_out_overwrites :
  let w0 := snd (subscription_enter (snd (subscription_enter Hub_init))) in
  fst (run 1 [Publish "a"; Get 0; Publish "b"; Get 1; Get 0; Get 1] w0) = ["b"]
  /\ fst (run 0 [Publish "a"; Get 0; Publish "b"; Get 1; Get 0; Get 1] w0) = ["a"; "b"].
Proof. vm_compute. done. Qed.

(** C1, the code where it departs from the claim. After any sequence of
    publishes whose last message is the empty string, the hub's last message
    is set, yet a channel that subscribes gets nothing written into it: the
    test of [add_subscription] is the truth value of the message. Its first
    read stays suspended. *)
Theorem empty_last_message_not_replayed (w : @world string) (ms : list string) :
  let w1 := publish_all (ms ++ [EmptyString]) w in
  _last_message (hub w1) = Some EmptyString
  /\ queues (snd (subscription_enter w1)) !! fst (subscription_enter w1) = Some None
  /\ get (fst (subscription_enter w1)) (snd (subscription_enter w1)) = None.
Proof.
  intros w1.
  assert (Hlast : _last_message (hub w1) = Some EmptyString)
    by apply publish_all_snoc_last_message.
  assert (Hslot : queues (snd (subscription_enter w1)) !! fst (subscription_enter w1)
                  = Some None).
  { rewrite subscription_enter_lookup, decide_True by done. by rewrite Hlast. }
  repeat split; [done..|]. apply get_None_falsy. by rewrite Hslot.
Qed.

(** C2, the code where it departs from the claim. A channel subscribes
    and its reader is scheduled a first time; a burst of at least two
    publishes follows, the last one of the empty string. The queue holds
    that last message, since every put overwrites, but it counts as empty
    and the next read stays suspended. *)
Theorem burst_ending_in_empty_message_not_read
    (w : @world string) (m : string) (ms : list string) :
  let c := fst (subscription_enter w) in
  let w1 := snd (subscription_enter w) in
  let w2 := match get c w1 with Some (_, w') => w' | None => w1 end in
  let w3 := publish_all (m :: ms ++ [EmptyString]) w2 in
  queues w3 !! c = Some (Some EmptyString) /\ get c w3 = None.
Proof.
  intros c w1 w2 w3.
  assert (Hhub : hub w2 = hub w1).
  { unfold w2. destruct (get c w1) as [[item w']|] eqn:Hget; [|done].
    by apply get_inv in Hget as (_ & _ & ->). }
  assert (Hslot : queues w3 !! c = Some (Some EmptyString)).
  { unfold w3. rewrite app_comm_cons. apply publish_all_snoc_lookup.
    rewrite Hhub. unfold w1, c. rewrite subscription_enter_hub. simpl.
    apply elem_of_union_l. by apply elem_of_singleton. }
  split; [done|]. apply get_None_falsy. by rewrite Hslot.
Qed.

(** C3 on a run: the connection subscribes after ["a"] was published,
    reads it, and after two more publishes reads the last one only. *)
Lemma delivery_monotonically_fresh_witness :
  let w := publish "a" (@Hub_init string) in
  let ops := [Get 0; Publish "bb"; Publish "ccc"; Get 0] in
  StronglySorted lt
    (map String.length (option_list (_last_message (hub w)) ++ published ops))
  /\ StronglySorted lt
       (map String.length
          (fst (run (fst (subscription_enter w)) ops (snd (subscription_enter w))))).
Proof.
  intros w ops.
  assert (Hsorted : StronglySorted lt
            (map String.length (option_list (_last_message (hub w)) ++ published ops))).
  { simpl. repeat constructor. }
  split; [exact Hsorted|].
  exact (delivery_monotonically_fresh String.length w ops Hsorted).
Defined.

(** C8 as stated fails: on a hub with one subscriber, the second
    [remove_subscription] of that subscriber raises [KeyError]. *)
Lemma remove_subscription_twice_raises :
  ~ (forall (w : @world string) (q : nat),
       fst (remove_subscription q (snd (remove_subscription q w))) = Ok tt
       /\ snd (remove_subscription q (snd (remove_subscription q w)))
          = snd (remove_subscription q w)).
Proof.
  intros Hclaim.
  destruct (Hclaim (snd (subscription_enter Hub_init)) 0) as [Hok _].
  vm_compute in Hok. discriminate Hok.
Qed.

(** C8, amended, on the hub with one subscriber. *)
Lemma remove_subscription_then_KeyError_witness :
  let w := snd (subscription_enter (@Hub_init string)) in
  0 ∈ _subscriptions (hub w)
  /\ fst (remove_subscription 0 w) = Ok tt
  /\ remove_subscription 0 (snd (remove_subscription 0 w))
     = (Raise (KeyError EmptyString), snd (remove_subscription 0 w)).
Proof.
  intros w.
  assert (Hin : 0 ∈ _subscriptions (hub w)) by (vm_compute; reflexivity).
  destruct (remove_subscription_then_KeyError w 0 Hin) as (H1 & _ & _ & _ & H5).
  repeat split; assumption.
Defined.

(** ** The connection handlers *)

(** A message is delivered, then the connection closes. *)
Example websockets_handler_run :
  websockets_handler (WebSocket ∅ ("10.0.0.7", 51234%Z)) [MsgDone "m" None; CloseDone]
  = ([LogConnected "10.0.0.7" None; Subscribe;
      CreateTask (task_msg_wait 0); CreateTask task_client_disconnect;
      Wait (task_msg_wait 0) task_client_disconnect; Send "m";
      CreateTask (task_msg_wait 1);
      Wait (task_msg_wait 1) task_client_disconnect;
      LogDisconnected "10.0.0.7" None;
      Cancel (task_msg_wait 1); Await (task_msg_wait 1); Unsubscribe],
     Raised (asyncio_CancelledError EmptyString)).
Proof. reflexivity. Qed.

(** Behind a proxy [_handler] logs the forwarded address. *)
Example get_client_address_forwarded :
  get_client_address (WebSocket {["X-Forwarded-For" := "192.0.2.1"]} ("10.0.0.7", 51234%Z))
  = ("192.0.2.1", "X-Forwarded-For").
Proof. vm_compute. done. Qed.

(** A failed send leaves the handler through the [finally] clause. *)
Example send_failure_unsubscribes :
  _handler (WebSocket ∅ ("10.0.0.7", 51234%Z)) [MsgDone "m" (Some (ConnectionClosed "1006"))]
  = ([LogConnected "10.0.0.7" (Some "socket peer name"); Subscribe;
      CreateTask (task_msg_wait 0); CreateTask task_client_disconnect;
      Wait (task_msg_wait 0) task_client_disconnect; Send "m"; Unsubscribe],
     Raised (ConnectionClosed "1006")).
Proof. vm_compute. done. Qed.

Section HandlerFacts.
Implicit Types (items : list string) (events rest : list completion) (n : nat).

Lemma ws_loop_close address items rest : forall n,
  ws_loop address n (delivered items ++ CloseDone :: rest)
  = (deliveries n items ++ teardown (LogDisconnected address None) (n + length items),
     Raised (asyncio_CancelledError EmptyString)).
Proof.
  induction items as [|item items IH]; intros n; simpl.
  - by rewrite Nat.add_0_r.
  - rewrite IH. by rewrite Nat.add_succ_r.
Qed.

Lemma _handler_loop_close address from items rest : forall n,
  _handler_loop address from n (delivered items ++ CloseDone :: rest)
  = (deliveries n items
     ++ teardown (LogDisconnected address (Some from)) (n + length items),
     Returned).
Proof.
  induction items as [|item items IH]; intros n; simpl.
  - by rewrite Nat.add_0_r.
  - rewrite IH. by rewrite Nat.add_succ_r.
Qed.

Lemma filter_deliveries (f : handler_call -> bool) n items :
  (forall t1 t2, f (Wait t1 t2) = false) -> (forall t, f (CreateTask t) = false) ->
  List.filter f (deliveries n items) = List.filter f (map Send items).
Proof.
  intros Hwait Hcreate. revert n.
  induction items as [|item items IH]; intros n; simpl; [done|].
  rewrite Hwait, Hcreate, IH. done.
Qed.

Lemma filter_sends_all items : List.filter is_send (map Send items) = map Send items.
Proof. induction items as [|item items IH]; simpl; [done|]. by rewrite IH. Qed.

Lemma filter_sends_none (f : handler_call -> bool) items :
  (forall m, f (Send m) = false) -> List.filter f (map Send items) = [].
Proof. intros Hf. induction items as [|item items IH]; simpl; [done|]. by rewrite Hf. Qed.

(** The whole run of [websockets_handler] when the connection closes
    while a [get] is pending. *)
Lemma websockets_handler_close ws items rest :
  websockets_handler ws (delivered items ++ CloseDone :: rest)
  = (LogConnected (fst (remote_address ws)) None
     :: Subscribe :: CreateTask (task_msg_wait 0) :: CreateTask task_client_disconnect
     :: deliveries 0 items
     ++ teardown (LogDisconnected (fst (remote_address ws)) None) (length items)
     ++ [Unsubscribe],
     Raised (asyncio_CancelledError EmptyString)).
Proof.
  unfold websockets_handler. rewrite ws_loop_close. unfold with_subscription. simpl.
  by rewrite <- app_assoc.
Qed.

Lemma _handler_close ws items rest :
  _handler ws (delivered items ++ CloseDone :: rest)
  = (LogConnected (fst (get_client_address ws)) (Some (snd (get_client_address ws)))
     :: Subscribe :: CreateTask (task_msg_wait 0) :: CreateTask task_client_disconnect
     :: deliveries 0 items
     ++ teardown (LogDisconnected (fst (get_client_address ws))
                    (Some (snd (get_client_address ws)))) (length items)
     ++ [Unsubscribe],
     Returned).
Proof.
  unfold _handler. destruct (get_client_address ws) as [address from].
  rewrite _handler_loop_close. unfold with_hub_subscribe. simpl.
  by rewrite <- app_assoc.
Qed.

(** C4. When the connection closes while the [get] of its channel is
    pending, after any number of delivered messages, [websockets_handler]
    sends what was delivered and then cancels that [get], awaits it and
    unsubscribes, each exactly once and in this order, as its last three
    calls; it then ends (the cancellation it awaited leaves it as an
    exception), so it is not left suspended. *)
Theorem close_while_get_pending ws items rest :
  let r := websockets_handler ws (delivered items ++ CloseDone :: rest) in
  let pending := task_msg_wait (length items) in
  List.filter is_send (fst r) = map Send items
  /\ List.filter is_cancel (fst r) = [Cancel pending]
  /\ List.filter is_await (fst r) = [Await pending]
  /\ List.filter is_unsubscribe (fst r) = [Unsubscribe]
  /\ (exists before, fst r = before ++ [Cancel pending; Await pending; Unsubscribe])
  /\ snd r = Raised (asyncio_CancelledError EmptyString).
Proof.
  intros r pending. unfold r. rewrite websockets_handler_close. simpl.
  rewrite !List.filter_app, !filter_deliveries by done. simpl.
  rewrite filter_sends_all, !filter_sends_none by done. simpl.
  rewrite app_nil_r. repeat split.
  eexists (_ :: _ :: _ :: _ :: deliveries 0 items ++ [_; _]).
  simpl. by rewrite <- app_assoc.
Qed.

(** The same run of [_handler]: the same calls, and a normal return. *)
Lemma _handler_close_while_get_pending ws items rest :
  let r := _handler ws (delivered items ++ CloseDone :: rest) in
  let pending := task_msg_wait (length items) in
  List.filter is_send (fst r) = map Send items
  /\ List.filter is_cancel (fst r) = [Cancel pending]
  /\ List.filter is_await (fst r) = [Await pending]
  /\ List.filter is_unsubscribe (fst r) = [Unsubscribe]
  /\ snd r = Returned.
Proof.
  intros r pending. unfold r. rewrite _handler_close. simpl.
  rewrite !List.filter_app, !filter_deliveries by done. simpl.
  rewrite filter_sends_all, !filter_sends_none by done. simpl.
  by rewrite app_nil_r.
Qed.

Lemma loops_same_effects address address' from events : forall n,
  effects (fst (ws_loop address n events))
  = effects (fst (_handler_loop address' from n events))
  /\ (snd (ws_loop address n events) = snd (_handler_loop address' from n events)
      \/ (snd (ws_loop address n events) = Raised (asyncio_CancelledError EmptyString)
          /\ snd (_handler_loop address' from n events) = Returned)).
Proof.
  induction events as [|ev events IH]; intros n; [by split; [|left]|].
  destruct ev as [item [e|]| |item [e|] [|]|]; simpl; try (by split; [|left]).
  - specialize (IH (S n)).
    destruct (ws_loop address (S n) events) as [calls1 e1].
    destruct (_handler_loop address' from (S n) events) as [calls2 e2].
    simpl in *. destruct IH as [IH1 IH2]. split; [|done].
    unfold effects in *. simpl. by rewrite IH1.
  - split; [done|]. by right.
Qed.

(** For every sequence of events the two handlers make the same calls,
    log lines apart; they end in the same way except where
    [websockets_handler] is left by the cancellation it awaited. *)
Lemma handlers_same_effects ws events :
  effects (fst (websockets_handler ws events)) = effects (fst (_handler ws events))
  /\ (snd (websockets_handler ws events) = snd (_handler ws events)
      \/ (snd (websockets_handler ws events) = Raised (asyncio_CancelledError EmptyString)
          /\ snd (_handler ws events) = Returned)).
Proof.
  unfold websockets_handler, _handler.
  destruct (get_client_address ws) as [address from].
  destruct (loops_same_effects (fst (remote_address ws)) address from events 0)
    as [Heff Hend].
  destruct (ws_loop (fst (remote_address ws)) 0 events) as [calls1 e1].
  destruct (_handler_loop address from 0 events) as [calls2 e2].
  unfold with_subscription, with_hub_subscribe, effects in *. simpl in *.
  destruct Hend as [<-|[-> ->]].
  - destruct e1; simpl; (split; [|by left]);
      rewrite ?List.filter_app, ?Heff; done.
  - simpl. split; [|by right]. rewrite !List.filter_app, Heff. done.
Qed.

(** C9, the code where it departs from the claim. The connection closes
    while the first [get] is pending: both handlers log, cancel the [get],
    await it and unsubscribe, but [websockets_handler] is then left by
    the [CancelledError] of the awaited task, which [_handler] catches
    before it returns. *)
Theorem handlers_differ_on_close ws :
  effects (fst (websockets_handler ws [CloseDone]))
  = effects (fst (_handler ws [CloseDone]))
  /\ snd (websockets_handler ws [CloseDone]) = Raised (asyncio_CancelledError EmptyString)
  /\ snd (_handler ws [CloseDone]) = Returned
  /\ snd (websockets_handler ws [CloseDone]) <> snd (_handler ws [CloseDone]).
Proof.
  pose proof (websockets_handler_close ws [] []) as H1.
  pose proof (_handler_close ws [] []) as H2. simpl in H1, H2.
  rewrite H1, H2. simpl. repeat split. discriminate.
Qed.
End HandlerFacts.

(** ** The upstream connector *)

(** A refused connection, then a session that fails in its first health
    check. *)
Example opcua_task_run :
  opcua_task "opc.tcp://plc:4840" "DB1" 5
    [Attempt 0 0 (ConnectionRefusedError "refused");
     Attempt 3 7 (asyncio_TimeoutError EmptyString)]
  = ([NewClient "opc.tcp://plc:4840"; Connect;
      LogClientError (ConnectionRefusedError "refused");
      LogRetry 5; Sleep 5;
      NewClient "opc.tcp://plc:4840"; Connect;
      GetNamespaceIndex SIMATIC_NAMESPACE_URI; GetChild 3 "SimaticStructures";
      LoadTypeDefinitions; CreateSubscription 1000; SubscribeDataChange 3 "DB1";
      Sleep 1; GetDataValue; Disconnect;
      LogClientError (asyncio_TimeoutError EmptyString)],
     Suspended).
Proof. reflexivity. Qed.

Section ConnectorFacts.
Variables (server_url monitor_node : string) (retry_delay : Z).

Local Abbreviation iteration := (opcua_iteration server_url monitor_node retry_delay).
Local Abbreviation loop := (opcua_loop server_url monitor_node retry_delay).
Local Abbreviation task := (opcua_task server_url monitor_node retry_delay).
Local Abbreviation failure := (failed_attempt server_url monitor_node).
Local Abbreviation retrial := (retry server_url monitor_node retry_delay).

Lemma except_clause e :
  isinstance_any e ["OSError"; "asyncio.TimeoutError"] = retryable e.
Proof. unfold isinstance_any, retryable. simpl. by rewrite orb_false_r. Qed.

Lemma iteration_retryable retrying a :
  retryable (raised a) = true ->
  iteration retrying a
  = ((if retrying then [LogRetry retry_delay; Sleep retry_delay] else [])
     ++ failure a, Ok true).
Proof.
  intros Ha. unfold opcua_iteration. rewrite except_clause, Ha.
  unfold failed_attempt. by rewrite <- app_assoc.
Qed.

Lemma iteration_not_retryable retrying a :
  retryable (raised a) = false ->
  snd (iteration retrying a) = Raise (raised a).
Proof. intros Ha. unfold opcua_iteration. by rewrite except_clause, Ha. Qed.

Lemma loop_retries attempts :
  Forall (fun a => retryable (raised a) = true) attempts ->
  loop true attempts = (concat (map retrial attempts), Suspended).
Proof.
  induction 1 as [|a attempts Ha _ IH]; simpl; [done|].
  rewrite iteration_retryable, IH by done. reflexivity.
Qed.

Lemma loop_app retrying pre attempts :
  Forall (fun a => retryable (raised a) = true) pre ->
  snd (loop retrying (pre ++ attempts))
  = snd (loop (match pre with [] => retrying | _ => true end) attempts).
Proof.
  intros Hpre. revert retrying. induction Hpre as [|a pre Ha _ IH]; intros retrying;
    simpl; [done|].
  rewrite iteration_retryable by done. specialize (IH true).
  destruct (loop true (pre ++ attempts)) as [calls e]. simpl in *. rewrite IH.
  by destruct pre.
Qed.

Lemma filter_awaited (f : upstream_call -> bool) ns n : forall k,
  (forall i, 0 < i -> f (awaited ns monitor_node i) = false) ->
  List.filter f (map (awaited ns monitor_node) (seq (S k) n)) = [].
Proof.
  intros k Hf. revert k. induction n as [|n IH]; intros k; [done|].
  cbn [seq map List.filter]. rewrite Hf by lia. apply IH.
Qed.

Lemma awaited_not_connect ns i : 0 < i -> is_connect (awaited ns monitor_node i) = false.
Proof.
  intros Hi. destruct i as [|[|[|[|[|[|i]]]]]]; try done; [lia|].
  unfold awaited. by destruct (Nat.even _).
Qed.

Lemma awaited_not_log_retry ns i : is_log_retry (awaited ns monitor_node i) = false.
Proof.
  destruct i as [|[|[|[|[|[|i]]]]]]; try done.
  unfold awaited. by destruct (Nat.even _).
Qed.

Lemma connects_of_failed_attempt a : List.filter is_connect (failure a) = [Connect].
Proof.
  unfold failed_attempt, attempt_calls. cbn [seq map List.filter is_connect awaited app].
  rewrite !List.filter_app, filter_awaited by apply awaited_not_connect.
  by destruct (completed a).
Qed.

Lemma log_retries_of_failed_attempt a : List.filter is_log_retry (failure a) = [].
Proof.
  unfold failed_attempt, attempt_calls.
  cbn [seq map List.filter is_log_retry awaited app].
  rewrite !List.filter_app, filter_awaited by (intros; apply awaited_not_log_retry).
  by destruct (completed a).
Qed.

Lemma connects_of_retries attempts :
  length (List.filter is_connect (concat (map retrial attempts))) = length attempts.
Proof.
  induction attempts as [|a attempts IH]; [done|].
  cbn [map concat]. rewrite List.filter_app, length_app, IH.
  unfold retry. cbn [List.filter is_connect]. by rewrite connects_of_failed_attempt.
Qed.

Lemma log_retries_of_retries attempts :
  List.filter is_log_retry (concat (map retrial attempts))
  = repeat (LogRetry retry_delay) (length attempts).
Proof.
  induction attempts as [|a attempts IH]; [done|].
  cbn [map concat]. rewrite List.filter_app, IH.
  unfold retry. cbn [List.filter is_log_retry]. by rewrite log_retries_of_failed_attempt.
Qed.

(** C5. When every attempt raises an error of the network or timeout
    class, however many attempts there have been, the task is still in
    its loop (it has neither returned nor raised), it has made one
    connection attempt per failure, and every attempt after the first
    comes right after a sleep of the configured retrial delay. *)
Theorem retries_indefinitely a attempts :
  Forall (fun a => retryable (raised a) = true) (a :: attempts) ->
  task (a :: attempts)
  = (failure a ++ concat (map retrial attempts), Suspended)
  /\ length (List.filter is_connect (fst (task (a :: attempts))))
     = length (a :: attempts)
  /\ List.filter is_log_retry (fst (task (a :: attempts)))
     = repeat (LogRetry retry_delay) (length attempts).
Proof.
  intros Hall. apply Forall_cons in Hall as [Ha Hall].
  assert (Hrun : task (a :: attempts)
                 = (failure a ++ concat (map retrial attempts), Suspended)).
  { unfold opcua_task. cbn [opcua_loop].
    rewrite iteration_retryable, loop_retries by done. done. }
  rewrite Hrun. cbn [fst]. rewrite !List.filter_app, length_app.
  rewrite connects_of_failed_attempt, connects_of_retries.
  rewrite log_retries_of_failed_attempt, log_retries_of_retries. done.
Qed.

Lemma task_after_retries pre a :
  Forall (fun a => retryable (raised a) = true) pre ->
  snd (task (pre ++ [a]))
  = match snd (iteration (match pre with [] => false | _ => true end) a) with
    | Ok _ => Suspended
    | Raise e => Raised e
    end.
Proof.
  intros Hpre. unfold opcua_task. rewrite loop_app by done. simpl.
  destruct (iteration _ a) as [calls [r|e]]; done.
Qed.

(** An error outside the network and timeout class leaves the task. *)
Lemma not_retryable_propagates pre a :
  Forall (fun a => retryable (raised a) = true) pre ->
  retryable (raised a) = false ->
  snd (task (pre ++ [a])) = Raised (raised a).
Proof.
  intros Hpre Ha. rewrite task_after_retries by done.
  by rewrite iteration_not_retryable.
Qed.

(** C6. An error that leaves the block is turned into a retrial exactly
    when it is an instance of [OSError] or of [asyncio.TimeoutError];
    any other error leaves [opcua_task], whatever failures were retried
    before it. *)
Theorem swallowed_iff_network_or_timeout retrying pre a :
  Forall (fun a => retryable (raised a) = true) pre ->
  (snd (iteration retrying a) = Ok true <-> retryable (raised a) = true)
  /\ (snd (iteration retrying a) = Raise (raised a) <-> retryable (raised a) = false)
  /\ (snd (task (pre ++ [a])) = Suspended <-> retryable (raised a) = true)
  /\ (snd (task (pre ++ [a])) = Raised (raised a) <-> retryable (raised a) = false).
Proof.
  intros Hpre. rewrite task_after_retries by done.
  destruct (retryable (raised a)) eqn:Ha.
  - rewrite !iteration_retryable by done. simpl. repeat split; done.
  - rewrite !iteration_not_retryable by done. repeat split; done.
Qed.
End ConnectorFacts.

(** C5 on three failures: refused, timed out in the health check, refused. *)
Lemma retries_indefinitely_witness :
  let a := Attempt 3 0 (ConnectionRefusedError "refused") in
  let b := Attempt 3 8 (asyncio_TimeoutError EmptyString) in
  Forall (fun a => retryable (raised a) = true) [a; b; a]
  /\ snd (opcua_task "opc.tcp://plc:4840" "DB1" 5 [a; b; a]) = Suspended.
Proof.
  intros a b.
  assert (Hall : Forall (fun a => retryable (raised a) = true) [a; b; a])
    by (repeat constructor).
  split; [exact Hall|].
  destruct (retries_indefinitely "opc.tcp://plc:4840" "DB1" 5 a [b; a] Hall) as [Hrun _].
  rewrite Hrun. reflexivity.
Defined.

(** C6 on a retried [OSError] followed by a [KeyError], which leaves the task. *)
Lemma swallowed_iff_network_or_timeout_witness :
  let a := Attempt 3 0 (OSError "unreachable") in
  let b := Attempt 3 2 (KeyError "ns") in
  Forall (fun a => retryable (raised a) = true) [a]
  /\ snd (opcua_task "opc.tcp://plc:4840" "DB1" 5 ([a] ++ [b])) = Raised (KeyError "ns").
Proof.
  intros a b.
  assert (Hpre : Forall (fun a => retryable (raised a) = true) [a])
    by (repeat constructor).
  split; [exact Hpre|].
  destruct (swallowed_iff_network_or_timeout "opc.tcp://plc:4840" "DB1" 5 false [a] b Hpre)
    as (_ & _ & _ & Hraise).
  apply Hraise. reflexivity.
Defined.

(** ** The shutdown coordinator *)

(** Two tasks are cancelled on SIGTERM; one of them fails while it stops. *)
Example shutdown_run :
  shutdown (Some "SIGTERM") [1; 2]
    (fun t => if Nat.eqb t 1 then Exception (asyncio_CancelledError EmptyString)
              else Exception (OSError "closed"))
  = [LogSignal "SIGTERM"; CancelTask 1; CancelTask 2; LogWaiting 2; Gather [1; 2];
     LogShutdownError (Exception (OSError "closed")); LoopStop].
Proof. reflexivity. Qed.

Section ShutdownFacts.
Variables (sig : option string) (tasks : list nat) (outcome : nat -> gathered).

(** C7. Of the results gathered from the cancelled tasks, those logged as
    errors of the shutdown are exactly the instances of [Exception] that
    are not instances of [CancelledError]: a cancellation is never
    logged, nor is a returned value. Every task is cancelled, then all
    are awaited together, and the loop is stopped last, after the wait. *)
Theorem shutdown_logs_errors_then_stops :
  List.filter (fun c => match c with LogShutdownError _ => true | _ => false end)
    (shutdown sig tasks outcome)
  = map LogShutdownError (List.filter is_shutdown_error (map outcome tasks))
  /\ (forall r, In (LogShutdownError r) (shutdown sig tasks outcome)
                <-> In r (map outcome tasks)
                    /\ exists e, r = Exception e
                                 /\ isinstance e "Exception" = true
                                 /\ isinstance e "asyncio.CancelledError" = false)
  /\ (forall e, isinstance e "asyncio.CancelledError" = true ->
                ~ In (LogShutdownError (Exception e)) (shutdown sig tasks outcome))
  /\ (exists before logged,
        shutdown sig tasks outcome = before ++ Gather tasks :: logged ++ [LoopStop]
        /\ List.filter (fun c => match c with CancelTask _ => true | _ => false end) before
           = map CancelTask tasks
        /\ ~ In LoopStop (before ++ Gather tasks :: logged)).
Proof.
  assert (Hin : forall r, In (LogShutdownError r) (shutdown sig tasks outcome)
                          <-> In r (map outcome tasks) /\ is_shutdown_error r = true).
  { intros r. unfold shutdown. rewrite !in_app_iff, <- filter_In. split.
    - intros [Hs|[Hc|[Hw|[Hl|Hstop]]]].
      + destruct sig; simpl in Hs; [destruct Hs as [Hs|[]]; discriminate Hs|destruct Hs].
      + apply in_map_iff in Hc as (t & Ht & _). discriminate Ht.
      + destruct Hw as [Hw|[Hw|[]]]; discriminate Hw.
      + apply in_map_iff in Hl as (r' & [= ->] & Hr). done.
      + destruct Hstop as [Hstop|[]]; discriminate Hstop.
    - intros Hr. right; right; right; left. by apply in_map. }
  assert (Herr : forall r, is_shutdown_error r = true
                           <-> exists e, r = Exception e
                                         /\ isinstance e "Exception" = true
                                         /\ isinstance e "asyncio.CancelledError" = false).
  { intros [v|e]; simpl.
    - split; [discriminate|]. intros (e & He & _). discriminate He.
    - rewrite andb_true_iff, negb_true_iff. split.
      + intros [Hc He]. by exists e.
      + intros (e' & [= <-] & He & Hc). done. }
  split; [|split; [|split]].
  - unfold shutdown. rewrite !List.filter_app.
    assert (Hnone : forall l, List.filter
              (fun c => match c with LogShutdownError _ => true | _ => false end)
              (map CancelTask l) = []).
    { induction l as [|t l IH]; simpl; done. }
    assert (Hall : forall l, List.filter
              (fun c => match c with LogShutdownError _ => true | _ => false end)
              (map LogShutdownError l) = map LogShutdownError l).
    { induction l as [|r l IH]; simpl; [done|]. by rewrite IH. }
    rewrite Hnone, Hall. destruct sig; simpl; by rewrite app_nil_r.
  - intros r. rewrite Hin, Herr. done.
  - intros e He [_ Herr']%Hin. simpl in Herr'. rewrite He in Herr'. discriminate.
  - exists ((match sig with Some name => [LogSignal name] | None => [] end)
            ++ map CancelTask tasks ++ [LogWaiting (length tasks)]),
           (map LogShutdownError (List.filter is_shutdown_error (map outcome tasks))).
    split; [|split].
    + unfold shutdown. rewrite <- !app_assoc. done.
    + rewrite !List.filter_app.
      assert (Hall : forall l, List.filter
                (fun c => match c with CancelTask _ => true | _ => false end)
                (map CancelTask l) = map CancelTask l).
      { induction l as [|t l IH]; simpl; [done|]. by rewrite IH. }
      rewrite Hall. destruct sig; simpl; by rewrite app_nil_r.
    + rewrite !in_app_iff. intros [[Hs|[Hc|Hw]]|Hg].
      * destruct sig; simpl in Hs; [destruct Hs as [Hs|[]]; discriminate Hs|destruct Hs].
      * apply in_map_iff in Hc as (t & Ht & _). discriminate Ht.
      * destruct Hw as [Hw|[]]. discriminate Hw.
      * destruct Hg as [Hg|Hl]; [discriminate Hg|].
        apply in_map_iff in Hl as (r & Hr & _). discriminate Hr.
Qed.
End ShutdownFacts.

(** ** The encoder and the subscription handler *)

(** A structure is flattened into its named fields, recursively. *)
Example encode_structure :
  encode (PyStruct [("level", "Float"); ("pump", "Pump")]
            [("level", PyFloat "1.5");
             ("pump", PyStruct [("on", "Boolean")] [("on", PyBool true)])])
  = Ok (JObject [("level", JFloat "1.5"); ("pump", JObject [("on", JBool true)])]).
Proof. reflexivity. Qed.

Example remove_char_quotes :
  remove_char double_quote (String double_quote ("DB" ++ String double_quote ".x"))%string
  = "DB.x".
Proof. reflexivity. Qed.

Section EncoderFacts.

Lemma getattr_members {A B} (f : A -> B) (attrs : list (string * A)) name :
  getattr (members f attrs) name = result_map f (getattr attrs name).
Proof.
  unfold getattr, members.
  induction attrs as [|[k v] attrs IH]; simpl; [done|].
  destruct (String.eqb k name); [done|]. apply IH.
Qed.

Lemma getattr_In {V} (attrs : list (string * V)) name v :
  getattr attrs name = Ok v -> In (name, v) attrs.
Proof.
  unfold getattr. destruct (List.find _ attrs) as [[k v']|] eqn:Hfind; [|discriminate].
  intros [= <-]. apply find_some in Hfind as [Hin Hk]. simpl in *.
  apply String.eqb_eq in Hk. by subst k.
Qed.

Lemma dict_set_In {V} k (v : V) d k' v' :
  In (k', v') (dict_set k v d) -> (k', v') = (k, v) \/ In (k', v') d.
Proof.
  induction d as [|[k0 v0] d IH]; simpl.
  - intros [[= <- <-]|[]]. by left.
  - destruct (String.eqb k k0); simpl.
    + intros [[= <- <-]|Hin]; [by left|]. by right; right.
    + intros [Heq|Hin]; [by right; left|]. destruct (IH Hin); [by left|]. by right; right.
Qed.

Lemma dict_set_same {V} k (v : V) d : In (k, v) (dict_set k v d).
Proof.
  induction d as [|[k0 v0] d IH]; simpl; [by left|].
  destruct (String.eqb k k0); simpl; [by left|by right].
Qed.

Lemma dict_set_other {V} k (v : V) d k' v' :
  k' <> k -> In (k', v') d -> In (k', v') (dict_set k v d).
Proof.
  intros Hne. induction d as [|[k0 v0] d IH]; simpl; [done|].
  intros [[= -> ->]|Hin].
  - destruct (String.eqb k k') eqn:Hk.
    + apply String.eqb_eq in Hk. congruence.
    + by left.
  - destruct (String.eqb k k0); simpl; right; [done|]. by apply IH.
Qed.

(** When every name of [ua_types] is an attribute, the comprehension
    builds a dict; its entries are those of the dict it started from and,
    for each name, the attribute of that name. *)
Lemma comprehension_spec {V} (ua_types : list (string * string))
    (attrs : list (string * V)) : forall d,
  (forall t, In t ua_types -> exists v, getattr attrs (fst t) = Ok v) ->
  exists d', comprehension ua_types attrs d = Ok d'
    /\ (forall k v, In (k, v) d' ->
          In (k, v) d \/ (In k (map fst ua_types) /\ getattr attrs k = Ok v))
    /\ (forall k, In k (map fst ua_types) ->
          exists v, getattr attrs k = Ok v /\ In (k, v) d')
    /\ (forall k v, In (k, v) d -> In (k, v) d' \/ In k (map fst ua_types)).
Proof.
  induction ua_types as [|[k0 ty] ua_types IH]; intros d Hall; simpl.
  - exists d. repeat split; auto. intros k [].
  - destruct (Hall (k0, ty)) as [v0 Hv0]; [by left|]. simpl in Hv0. rewrite Hv0.
    destruct (IH (dict_set k0 v0 d)) as (d' & Hd' & Ha & Hb & Hc).
    { intros t Ht. apply Hall. by right. }
    exists d'. split; [done|]. split; [|split].
    + intros k v Hin. destruct (Ha k v Hin) as [Hin1|[Hk Hv]].
      * apply dict_set_In in Hin1 as [[= -> ->]|Hin1]; [|by left].
        right. split; [by left|done].
      * right. split; [by right|done].
    + intros k [<-|Hk]; [|by apply Hb].
      destruct (in_dec string_dec k0 (map fst ua_types)) as [Hk|Hk]; [by apply Hb|].
      exists v0. split; [done|].
      destruct (Hc k0 v0 (dict_set_same k0 v0 d)) as [Hin|Hin]; [done|]. by destruct Hk.
    + intros k v Hin. destruct (string_dec k k0) as [->|Hne]; [by right; left|].
      destruct (Hc k v (dict_set_other k0 v0 d k v Hne Hin)) as [Hin'|Hin']; [by left|].
      by right; right.
Qed.

Lemma comprehension_members {A B} (f : A -> B) ua_types (attrs : list (string * A)) :
  forall d,
  comprehension ua_types (members f attrs) (members f d)
  = result_map (members f) (comprehension ua_types attrs d).
Proof.
  induction ua_types as [|[k ty] ua_types IH]; intros d; simpl; [done|].
  rewrite getattr_members. destruct (getattr attrs k) as [v|e]; simpl; [|done].
  rewrite <- IH. f_equal. clear.
  induction d as [|[k0 v0] d IHd]; simpl; [done|].
  destruct (String.eqb k k0); simpl; [done|]. by rewrite IHd.
Qed.

(** The encoding of a structure is [default] followed by the encoding of
    the dict that [default] returns. *)
Lemma encode_PyStruct ua_types attrs :
  encode (PyStruct ua_types attrs)
  = match OPCUAEncoder.default (PyStruct ua_types attrs) with
    | Ok d => encode d
    | Raise e => Raise e
    end.
Proof.
  simpl. change (@nil (string * result json)) with (members encode (@nil (string * pyobj))).
  rewrite comprehension_members.
  destruct (comprehension ua_types attrs []) as [d|e]; done.
Qed.

Lemma encode_PyObject cls :
  encode (PyObject cls)
  = match OPCUAEncoder.default (PyObject cls) with
    | Ok d => encode d
    | Raise e => Raise e
    end.
Proof. done. Qed.

Lemma collect_is_ok {A} (rs : list (result A)) : is_ok (collect rs) = forallb is_ok rs.
Proof.
  induction rs as [|[a|e] rs IH]; simpl; [done| |done].
  rewrite <- IH. by destruct (collect rs).
Qed.

Lemma collect_ok_or_TypeError {A} (rs : list (result A)) :
  Forall ok_or_TypeError rs -> ok_or_TypeError (collect rs).
Proof.
  induction 1 as [|[a|e] rs Hr _ IH]; simpl; [done| |done].
  by destruct (collect rs).
Qed.

Lemma collect_members_is_ok {A} (rs : list (string * result A)) :
  is_ok (collect_members rs) = forallb is_ok (map snd rs).
Proof.
  unfold collect_members. rewrite <- collect_is_ok. by destruct (collect (map snd rs)).
Qed.

Lemma collect_members_ok_or_TypeError {A} (rs : list (string * result A)) :
  Forall ok_or_TypeError (map snd rs) -> ok_or_TypeError (collect_members rs).
Proof.
  intros Hrs%collect_ok_or_TypeError. unfold collect_members.
  by destruct (collect (map snd rs)).
Qed.

Lemma result_map_is_ok {A B} (f : A -> B) r : is_ok (result_map f r) = is_ok r.
Proof. by destruct r. Qed.

Lemma result_map_ok_or_TypeError {A B} (f : A -> B) r :
  ok_or_TypeError r -> ok_or_TypeError (result_map f r).
Proof. by destruct r. Qed.

Lemma encode_items items :
  Forall encodes_or_TypeError items -> forallb attrs_present items = true ->
  Forall ok_or_TypeError (map encode items)
  /\ forallb is_ok (map encode items) = negb (existsb reaches_object items).
Proof.
  induction 1 as [|o items Ho _ IH]; simpl; [done|].
  intros [Hp Hps]%andb_true_iff. destruct (Ho Hp) as [Hgood Hok].
  destruct (IH Hps) as [Hgoods Hoks]. split; [by constructor|].
  by rewrite Hok, Hoks, negb_orb.
Qed.

Lemma encode_members items :
  Forall (fun kv => encodes_or_TypeError (snd kv)) items ->
  forallb snd (members attrs_present items) = true ->
  Forall ok_or_TypeError (map snd (members encode items))
  /\ forallb is_ok (map snd (members encode items))
     = negb (existsb snd (members reaches_object items)).
Proof.
  induction 1 as [|[k o] items Ho _ IH]; simpl; [done|].
  intros [Hp Hps]%andb_true_iff. destruct (Ho Hp) as [Hgood Hok]. simpl in Hgood, Hok.
  destruct (IH Hps) as [Hgoods Hoks]. split; [by constructor|].
  by rewrite Hok, Hoks, negb_orb.
Qed.

Lemma encode_outcome o : encodes_or_TypeError o.
Proof.
  induction o as [ |b|z|r|s|items IH|items IH|ua_types attrs IH|cls]
    using pyobj_nested_ind; intros Hp; try done.
  - (* list *)
    simpl in *. destruct (encode_items items IH Hp) as [Hgood Hok]. split.
    + by apply result_map_ok_or_TypeError, collect_ok_or_TypeError.
    + by rewrite result_map_is_ok, collect_is_ok.
  - (* dict *)
    simpl in *. destruct (encode_members items IH Hp) as [Hgood Hok]. split.
    + by apply result_map_ok_or_TypeError, collect_members_ok_or_TypeError.
    + by rewrite result_map_is_ok, collect_members_is_ok.
  - (* structure *)
    simpl in Hp. rewrite forallb_forall in Hp.
    assert (Hattr : forall t, In t ua_types ->
              exists v, getattr attrs (fst t) = Ok v /\ attrs_present v = true).
    { intros t Ht. specialize (Hp t Ht). rewrite getattr_members in Hp.
      destruct (getattr attrs (fst t)) as [v|e]; [|discriminate]. by exists v. }
    destruct (comprehension_spec ua_types (members encode attrs) [])
      as (d & Hd & Ha & Hb & _).
    { intros t Ht. destruct (Hattr t Ht) as (v & Hv & _).
      exists (encode v). by rewrite getattr_members, Hv. }
    assert (Hentry : forall k r, In (k, r) d ->
              exists v, In k (map fst ua_types) /\ getattr attrs k = Ok v
                        /\ attrs_present v = true /\ r = encode v).
    { intros k r Hin. destruct (Ha k r Hin) as [[]|[Hk Hr]].
      apply in_map_iff in Hk as (t & <- & Ht).
      destruct (Hattr t Ht) as (v & Hv & Hpv). exists v.
      rewrite getattr_members, Hv in Hr. injection Hr as <-.
      repeat split; try done. apply in_map_iff. by exists t. }
    rewrite List.Forall_forall in IH.
    simpl. rewrite Hd. split.
    + apply result_map_ok_or_TypeError, collect_members_ok_or_TypeError.
      apply List.Forall_forall. intros r Hr.
      apply in_map_iff in Hr as ([k r'] & <- & Hin). simpl.
      destruct (Hentry k r' Hin) as (v & _ & Hv & Hpv & ->).
      apply (IH (k, v)); [|done]. by apply getattr_In.
    + rewrite result_map_is_ok, collect_members_is_ok.
      apply eq_true_iff_eq. rewrite forallb_forall, negb_true_iff.
      rewrite <- not_true_iff_false, existsb_exists. split.
      * intros Hall (t & Ht & Hreach). rewrite getattr_members in Hreach.
        destruct (Hattr t Ht) as (v & Hv & Hpv). rewrite Hv in Hreach. simpl in Hreach.
        destruct (Hb (fst t)) as (r & Hr & Hin); [apply in_map_iff; by exists t|].
        rewrite getattr_members, Hv in Hr. injection Hr as <-.
        specialize (Hall (encode v)). rewrite in_map_iff in Hall.
        assert (Hok : is_ok (encode v) = true) by (apply Hall; by exists (fst t, encode v)).
        destruct (IH (fst t, v) (getattr_In _ _ _ Hv) Hpv) as [_ Hneg]. simpl in Hneg.
        rewrite Hok, Hreach in Hneg. discriminate.
      * intros Hnone r Hr. apply in_map_iff in Hr as ([k r'] & <- & Hin). simpl.
        destruct (Hentry k r' Hin) as (v & Hk & Hv & Hpv & ->).
        destruct (IH (k, v) (getattr_In _ _ _ Hv) Hpv) as [_ Hneg]. simpl in Hneg.
        rewrite Hneg. apply negb_true_iff, not_true_iff_false. intros Hreach.
        apply Hnone. apply in_map_iff in Hk as (t & <- & Ht). exists t. split; [done|].
        by rewrite getattr_members, Hv.
  - (* any other object *)
    split; [by exists cls|done].
Qed.

Variable json_text : json -> string.

(** A value that encodes is published as the wire message, and becomes the
    hub's last message. *)
Lemma datachange_notification_publishes identifier val data (w : @world string) :
  encode val = Ok data ->
  datachange_notification json_text identifier val w
  = (Ok tt,
     publish (json_text (JObject [("type", JString "opc_data_change");
                                  ("node", JString (remove_char double_quote identifier));
                                  ("data", data)])) w).
Proof.
  intros Hval. unfold datachange_notification, json_dumps. simpl. by rewrite Hval.
Qed.











End EncoderFacts.




(** * Further properties of the code *)

(** ** The queue and the hub *)

Section PubsubMore.
Context {Msg : Type} `{Truthy Msg}.
Implicit Types (w : @world Msg) (m : Msg) (c q : nat).

(** X1. Whatever the queue held, after two puts a read returns the item put
    last, when that item is true, and leaves the queue empty: a second read
    raises [QueueEmpty]. *)
Theorem put_twice_then_get_nowait (a b : Msg) (q : option Msg) :
  truthy b = true ->
  get_nowait (put_nowait b (put_nowait a q)) = Ok (b, None)
  /\ get_nowait (@None Msg) = Raise (asyncio_QueueEmpty EmptyString).
Proof.
  intros Hb. split; [|done].
  unfold get_nowait, put_nowait, full, _put, _get, empty. by rewrite truthy_Some, Hb.
Qed.

(** X2. A read that completes returns what its queue held, empties that
    queue only, leaves the hub and every other queue as they were, and is
    not repeated: the next read of the same queue stays suspended. *)
Theorem read_empties_own_queue_only q w m w' :
  get q w = Some (m, w') ->
  queues w !! q = Some (Some m)
  /\ hub w' = hub w
  /\ queues w' !! q = Some None
  /\ (forall c, c <> q -> queues w' !! c = queues w !! c)
  /\ get q w' = None.
Proof.
  intros (Hq & _ & ->)%get_inv. simpl. rewrite lookup_insert_eq.
  repeat split; try done.
  - intros c Hc. by rewrite lookup_insert_ne.
  - apply get_None_falsy. simpl. by rewrite lookup_insert_eq.
Qed.

(** X3. [publish] writes the message into the queue of every subscriber and
    into no other queue, records it as the last message and leaves the set
    of subscribers as it was. *)
Theorem publish_fans_out_exactly m w c :
  (c ∈ _subscriptions (hub w) -> queues (publish m w) !! c = Some (Some m))
  /\ (c ∉ _subscriptions (hub w) -> queues (publish m w) !! c = queues w !! c)
  /\ _subscriptions (hub (publish m w)) = _subscriptions (hub w)
  /\ _last_message (hub (publish m w)) = Some m.
Proof.
  repeat split; intros; rewrite ?publish_lookup;
    [by rewrite decide_True | by rewrite decide_False].
Qed.

Lemma publish_all_lookup_unsubscribed ms w c :
  c ∉ _subscriptions (hub w) -> queues (publish_all ms w) !! c = queues w !! c.
Proof.
  revert w. induction ms as [|m ms IH]; intros w Hc; [done|]. simpl.
  rewrite IH by done. rewrite publish_lookup. by rewrite decide_False.
Qed.

(** X4. Once [remove_subscription] was called for a channel, no later
    publish touches its queue. *)
Theorem unsubscribed_queue_untouched w c ms :
  queues (publish_all ms (snd (remove_subscription c w))) !! c = queues w !! c.
Proof.
  rewrite publish_all_lookup_unsubscribed.
  - unfold remove_subscription. by case_decide.
  - unfold remove_subscription. case_decide as Hc; simpl; [|done].
    intros [_ Hn]%elem_of_difference. apply Hn. by apply elem_of_singleton.
Qed.

(** X5. The first read of a channel that has just subscribed: it returns
    the hub's last message when there is one and it is true; otherwise
    (nothing published yet, or a false message) it stays suspended. *)
Theorem first_read_after_subscribing w :
  fst <$> get (fst (subscription_enter w)) (snd (subscription_enter w))
  = if truthy (_last_message (hub w)) then _last_message (hub w) else None.
Proof.
  destruct (_last_message (hub w)) as [m|] eqn:Hlast.
  - rewrite truthy_Some. destruct (truthy m) eqn:Hm.
    + erewrite get_Some_truthy; [done| |exact Hm].
      rewrite subscription_enter_lookup, decide_True by done.
      by rewrite Hlast, truthy_Some, Hm.
    + rewrite get_None_falsy; [done|].
      rewrite subscription_enter_lookup, decide_True by done.
      by rewrite Hlast, truthy_Some, Hm.
  - rewrite get_None_falsy; [done|].
    rewrite subscription_enter_lookup, decide_True by done. by rewrite Hlast.
Qed.

(** X6. After a burst of publishes that ends with a true message, the next
    read of a subscriber returns that message, and the read after it stays
    suspended: the earlier messages of the burst are gone. *)
Theorem burst_read_returns_last_only ms m w c :
  c ∈ _subscriptions (hub w) -> truthy m = true ->
  exists w', get c (publish_all (ms ++ [m]) w) = Some (m, w') /\ get c w' = None.
Proof.
  intros Hc Hm. eexists. split; [by apply burst_last_wins|].
  apply get_None_falsy. simpl. by rewrite lookup_insert_eq.
Qed.

(** *** An invariant of the hub *)

Lemma run_preserves (P : @world Msg -> Prop) c ops :
  (forall m w, P w -> P (publish m w)) ->
  (forall q w m w', P w -> get q w = Some (m, w') -> P w') ->
  (forall w, P w -> P (snd (subscription_enter w))) ->
  (forall q w, P w -> P (snd (subscription_exit q w))) ->
  forall w, P w -> P (snd (run c ops w)).
Proof.
  intros Hpub Hget Henter Hexit.
  induction ops as [|o ops IH]; intros w Hw; [done|].
  destruct o as [m|q| |q]; simpl.
  - by apply IH, Hpub.
  - destruct (get q w) as [[item w']|] eqn:Hq; [|by apply IH].
    specialize (IH w' (Hget q w item w' Hw Hq)).
    by destruct (run c ops w').
  - by apply IH, Henter.
  - by apply IH, Hexit.
Qed.

Lemma empty_or_latest_publish m w : empty_or_latest w -> empty_or_latest (publish m w).
Proof.
  intros _ c Hc. right. rewrite publish_lookup. by rewrite decide_True.
Qed.

Lemma empty_or_latest_get q w m w' :
  empty_or_latest w -> get q w = Some (m, w') -> empty_or_latest w'.
Proof.
  intros Hw (_ & _ & ->)%get_inv c Hc. simpl in *.
  destruct (decide (c = q)) as [->|Hne].
  - left. by rewrite lookup_insert_eq.
  - rewrite lookup_insert_ne by done. by apply Hw.
Qed.

Lemma empty_or_latest_enter w :
  empty_or_latest w -> empty_or_latest (snd (subscription_enter w)).
Proof.
  intros Hw c. rewrite subscription_enter_hub, subscription_enter_lookup. simpl.
  intros Hc. case_decide as Hfresh.
  - destruct (truthy (_last_message (hub w))); [by right|by left].
  - apply Hw. apply elem_of_union in Hc as [Hc|Hc]; [|done].
    by apply elem_of_singleton in Hc.
Qed.

Lemma empty_or_latest_exit q w :
  empty_or_latest w -> empty_or_latest (snd (subscription_exit q w)).
Proof.
  intros Hw c. unfold subscription_exit, remove_subscription.
  case_decide; simpl; [|by apply Hw].
  intros [Hc _]%elem_of_difference. by apply Hw.
Qed.

Lemma run_empty_or_latest c ops w :
  empty_or_latest w -> empty_or_latest (snd (run c ops w)).
Proof.
  apply run_preserves.
  - apply empty_or_latest_publish.
  - apply empty_or_latest_get.
  - apply empty_or_latest_enter.
  - apply empty_or_latest_exit.
Qed.

Lemma Hub_init_empty_or_latest : empty_or_latest (@Hub_init Msg).
Proof. intros q Hq. by apply not_elem_of_empty in Hq. Qed.

(** X7. In every state the hub reaches from [Hub()] by publishes, reads,
    subscriptions and unsubscriptions, the queue of each subscriber exists
    and holds either nothing or the hub's last message: never an older
    one. *)
Theorem subscribed_queue_empty_or_latest c ops q :
  let w := snd (run c ops (@Hub_init Msg)) in
  q ∈ _subscriptions (hub w) ->
  queues w !! q = Some None \/ queues w !! q = Some (_last_message (hub w)).
Proof. intros w. apply run_empty_or_latest, Hub_init_empty_or_latest. Qed.

(** X8. From any reachable state, a connection that enters its [with]
    block, stays for any number of publishes and leaves: leaving does not
    raise, and the set of subscribers is the one it found. *)
Theorem scoped_subscription_restores c ops ms :
  let w := snd (run c ops (@Hub_init Msg)) in
  let q := fst (subscription_enter w) in
  let w' := publish_all ms (snd (subscription_enter w)) in
  q ∈ _subscriptions (hub w')
  /\ fst (subscription_exit q w') = Ok tt
  /\ _subscriptions (hub (snd (subscription_exit q w'))) = _subscriptions (hub w).
Proof.
  intros w q w'.
  assert (Hq : q ∈ _subscriptions (hub w')).
  { unfold w'. rewrite publish_all_subscriptions, subscription_enter_hub. simpl.
    apply elem_of_union_l. by apply elem_of_singleton. }
  assert (Hnew : q ∉ _subscriptions (hub w)).
  { intros Hin. apply (subscription_enter_fresh w). apply elem_of_dom.
    destruct (run_empty_or_latest c ops _ Hub_init_empty_or_latest q Hin) as [Hs|Hs];
      fold w in Hs; fold q; rewrite Hs; by eexists. }
  split; [done|]. unfold subscription_exit, remove_subscription.
  rewrite decide_True by done. simpl. split; [done|].
  unfold w'. rewrite publish_all_subscriptions, subscription_enter_hub. simpl.
  fold q. apply set_eq. intros x.
  rewrite elem_of_difference, elem_of_union, !elem_of_singleton. split.
  - intros [[Hx|Hx] Hne]; [by destruct Hne|done].
  - intros Hx. split; [by right|]. by intros ->.
Qed.

(** X9. Registering a queue that is already registered changes nothing:
    the set keeps one entry and the replayed message is the same. *)
Theorem add_subscription_idempotent q w :
  add_subscription q (add_subscription q w) = add_subscription q w.
Proof.
  unfold add_subscription. simpl.
  assert (Hset : {[q]} ∪ ({[q]} ∪ _subscriptions (hub w))
                 = {[q]} ∪ _subscriptions (hub w)).
  { by rewrite (assoc_L (∪)), (idemp_L (∪)). }
  destruct (_last_message (hub w)) as [m|]; simpl.
  - rewrite !truthy_Some. destruct (truthy m) eqn:Hm; simpl;
      rewrite truthy_Some, Hm, Hset; [|done].
    f_equal. unfold put_nowait_at. by rewrite insert_insert_eq.
  - by rewrite Hset.
Qed.

End PubsubMore.

(** X1 on the queue of a connection: ["old"] is overwritten twice. *)
Lemma put_twice_then_get_nowait_witness :
  truthy "b" = true
  /\ get_nowait (put_nowait "b" (put_nowait "a" (Some "old"))) = Ok ("b", None).
Proof.
  assert (Hb : truthy "b" = true) by reflexivity.
  split; [exact Hb|]. exact (proj1 (put_twice_then_get_nowait "a" "b" (Some "old") Hb)).
Defined.

(** X2 with two subscribers: the read of the first leaves the message of
    the second in place. *)
Lemma read_empties_own_queue_only_witness :
  let w := publish "m" (snd (subscription_enter (snd (subscription_enter Hub_init)))) in
  let w' := mkWorld (hub w) (<[0 := None]> (queues w)) in
  get 0 w = Some ("m", w')
  /\ queues w' !! 1 = queues w !! 1
  /\ get 0 w' = None.
Proof.
  intros w w'.
  assert (Hget : get 0 w = Some ("m", w')) by (vm_compute; reflexivity).
  destruct (read_empties_own_queue_only 0 w "m" w' Hget) as (_ & _ & _ & Hother & Hnext).
  split; [exact Hget|]. split; [apply Hother; discriminate|exact Hnext].
Defined.

(** X6 with one subscriber and a burst of three. *)
Lemma burst_read_returns_last_only_witness :
  let w := snd (subscription_enter (@Hub_init string)) in
  0 ∈ _subscriptions (hub w) /\ truthy "c" = true
  /\ exists w', get 0 (publish_all (["a"; "b"] ++ ["c"]) w) = Some ("c", w')
                /\ get 0 w' = None.
Proof.
  intros w.
  assert (Hin : 0 ∈ _subscriptions (hub w)) by (vm_compute; reflexivity).
  assert (Hc : truthy "c" = true) by reflexivity.
  split; [exact Hin|]. split; [exact Hc|].
  exact (burst_read_returns_last_only ["a"; "b"] "c" w 0 Hin Hc).
Defined.

(** X7 after a subscription, two publishes and a read by a second
    subscriber: the queue of the first holds the last message. *)
Lemma subscribed_queue_empty_or_latest_witness :
  let ops := [Enter; Enter; Publish "a"; Publish "b"; Get 1] in
  let w := snd (run 0 ops (@Hub_init string)) in
  0 ∈ _subscriptions (hub w)
  /\ (queues w !! 0 = Some None \/ queues w !! 0 = Some (_last_message (hub w))).
Proof.
  intros ops w.
  assert (Hin : 0 ∈ _subscriptions (hub w)) by (vm_compute; reflexivity).
  split; [exact Hin|]. exact (subscribed_queue_empty_or_latest 0 ops 0 Hin).
Defined.

(** ** The encoder and the subscription handler *)

Section EncoderMore.

(** X10. For a value whose structures have the attributes their
    [ua_types] name, the encoder builds a document exactly when it reaches
    no object that is neither native nor a structure, and any error it
    raises is a [TypeError]. *)
Theorem encode_fails_iff_reaches_object o :
  attrs_present o = true ->
  is_ok (encode o) = negb (reaches_object o)
  /\ forall e, encode o = Raise e -> exists cls, e = TypeError cls.
Proof.
  intros Hp. destruct (encode_outcome o Hp) as [Hgood Hok]. split; [done|].
  intros e He. by rewrite He in Hgood.
Qed.

Lemma dict_set_keys {V} k (v : V) d k' :
  In k' (map fst (dict_set k v d)) <-> k' = k \/ In k' (map fst d).
Proof.
  induction d as [|[k0 v0] d IH]; simpl.
  - split; [intros [<-|[]]; by left|intros [->|[]]; by left].
  - destruct (String.eqb k k0) eqn:Hk; simpl.
    + apply String.eqb_eq in Hk. subst k0. split.
      * intros [<-|Hin]; [by left|by right; right].
      * intros [->|[<-|Hin]]; [by left|by left|by right].
    + rewrite IH. split.
      * intros [<-|[->|Hin]]; [by right; left|by left|by right; right].
      * intros [->|[<-|Hin]]; [by right; left|by left|by right; right].
Qed.

Lemma dict_set_NoDup {V} k (v : V) d :
  List.NoDup (map fst d) -> List.NoDup (map fst (dict_set k v d)).
Proof.
  induction d as [|[k0 v0] d IH]; simpl; intros Hd.
  - constructor; [by intros []|constructor].
  - apply List.NoDup_cons_iff in Hd as [Hk0 Hd].
    destruct (String.eqb k k0) eqn:Hk; simpl.
    + apply String.eqb_eq in Hk. subst k0. by constructor.
    + apply String.eqb_neq in Hk. constructor; [|by apply IH].
      rewrite dict_set_keys. intros [?|?]; congruence.
Qed.

Lemma comprehension_NoDup {V} ua_types (attrs : list (string * V)) : forall d d',
  List.NoDup (map fst d) -> comprehension ua_types attrs d = Ok d' ->
  List.NoDup (map fst d').
Proof.
  induction ua_types as [|[k ty] ua_types IH]; intros d d' Hd; simpl.
  - by intros [= <-].
  - destruct (getattr attrs k) as [v|e]; [|discriminate].
    apply IH. by apply dict_set_NoDup.
Qed.

(** X11. [default] on an object that has every attribute its [ua_types]
    names returns a dict with one key per field name, each name once even
    when [ua_types] repeats it, and under each key the attribute of that
    name. *)
Theorem default_flattens_fields ua_types attrs :
  (forall t, In t ua_types -> is_ok (getattr attrs (fst t)) = true) ->
  exists d, OPCUAEncoder.default (PyStruct ua_types attrs) = Ok (PyDict d)
    /\ List.NoDup (map fst d)
    /\ (forall k, In k (map fst d) <-> In k (map fst ua_types))
    /\ (forall k v, In (k, v) d -> getattr attrs k = Ok v).
Proof.
  intros Hall.
  destruct (comprehension_spec ua_types attrs []) as (d & Hd & Ha & Hb & _).
  { intros t Ht. specialize (Hall t Ht).
    destruct (getattr attrs (fst t)) as [v|e]; [by exists v|discriminate]. }
  exists d. simpl. rewrite Hd. split; [done|]. split; [|split].
  - eapply comprehension_NoDup; [|exact Hd]. constructor.
  - intros k. split.
    + intros ([k' v] & <- & Hin)%in_map_iff. by destruct (Ha k' v Hin) as [[]|[Hk _]].
    + intros Hk. destruct (Hb k Hk) as (v & _ & Hin).
      apply in_map_iff. by exists (k, v).
  - intros k v Hin. by destruct (Ha k v Hin) as [[]|[_ Hv]].
Qed.

Lemma comprehension_missing {V} ua_types (attrs : list (string * V)) : forall d,
  (exists t, In t ua_types /\ is_ok (getattr attrs (fst t)) = false) ->
  exists name, comprehension ua_types attrs d = Raise (AttributeError name)
               /\ In name (map fst ua_types)
               /\ getattr attrs name = Raise (AttributeError name).
Proof.
  induction ua_types as [|[k ty] ua_types IH]; intros d (t & Ht & Hmiss); [done|].
  simpl. destruct (getattr attrs k) as [v|e] eqn:Hk.
  - destruct Ht as [<-|Ht]; [simpl in Hmiss; by rewrite Hk in Hmiss|].
    destruct (IH (dict_set k v d)) as (name & Hraise & Hin & Hname); [by exists t|].
    exists name. repeat split; [done|by right|done].
  - exists k. assert (e = AttributeError k) as ->.
    { unfold getattr in Hk. by destruct (List.find _ attrs); [|injection Hk as <-]. }
    repeat split; [by left|done].
Qed.

(** X12. An object whose [ua_types] names an attribute it does not have
    makes [default], and with it the encoder, raise [AttributeError] for
    the first such name. *)
Theorem missing_attribute_raises ua_types attrs :
  (exists t, In t ua_types /\ is_ok (getattr attrs (fst t)) = false) ->
  exists name,
    OPCUAEncoder.default (PyStruct ua_types attrs) = Raise (AttributeError name)
    /\ encode (PyStruct ua_types attrs) = Raise (AttributeError name)
    /\ In name (map fst ua_types)
    /\ getattr attrs name = Raise (AttributeError name).
Proof.
  intros Hmiss.
  destruct (comprehension_missing ua_types attrs [] Hmiss) as (name & Hraise & Hin & Hname).
  exists name.
  assert (Hdefault : OPCUAEncoder.default (PyStruct ua_types attrs)
                     = Raise (AttributeError name)) by (simpl; by rewrite Hraise).
  repeat split; try done. by rewrite encode_PyStruct, Hdefault.
Qed.

(** X13. The node identifier that is published is the identifier without
    its double quotes: the other characters are kept, in order, and no
    double quote is left. *)
Theorem remove_char_is_filter old s :
  list_ascii_of_string (remove_char old s)
  = List.filter (fun c => negb (Ascii.eqb c old)) (list_ascii_of_string s)
  /\ ~ In old (list_ascii_of_string (remove_char old s)).
Proof.
  assert (Hfilter : list_ascii_of_string (remove_char old s)
            = List.filter (fun c => negb (Ascii.eqb c old)) (list_ascii_of_string s)).
  { induction s as [|c s IH]; simpl; [done|].
    destruct (Ascii.eqb c old); simpl; by rewrite IH. }
  split; [done|]. rewrite Hfilter. intros [_ Hold]%filter_In.
  by rewrite Ascii.eqb_refl in Hold.
Qed.

Variable json_text : json -> string.

(** X14. A notification whose value encodes is published as one JSON
    object with the keys [type], [node] and [data]; its text becomes the
    hub's last message and is written into the queue of every
    subscriber. *)
Theorem notification_reaches_every_subscriber identifier val data (w : @world string) c :
  encode val = Ok data -> c ∈ _subscriptions (hub w) ->
  let text := json_text (JObject [("type", JString "opc_data_change");
                                  ("node", JString (remove_char double_quote identifier));
                                  ("data", data)]) in
  let r := datachange_notification json_text identifier val w in
  fst r = Ok tt
  /\ _last_message (hub (snd r)) = Some text
  /\ queues (snd r) !! c = Some (Some text).
Proof.
  intros Hval Hc text r. unfold r.
  rewrite (datachange_notification_publishes json_text identifier val data w Hval).
  simpl. repeat split. fold text.
  change (foldr (put_nowait_at text) (queues w) (elements (_subscriptions (hub w))))
    with (queues (publish text w)).
  rewrite publish_lookup. by rewrite decide_True.
Qed.

End EncoderMore.

(** X10 on a structure that holds a list of numbers. *)
Lemma encode_fails_iff_reaches_object_witness :
  let o := PyStruct [("values", "Array")] [("values", PyList [PyInt 1; PyInt 2])] in
  attrs_present o = true /\ is_ok (encode o) = negb (reaches_object o).
Proof.
  intros o. assert (Hp : attrs_present o = true) by reflexivity.
  split; [exact Hp|]. exact (proj1 (encode_fails_iff_reaches_object o Hp)).
Defined.

(** X11 on a structure whose [ua_types] names a field twice. *)
Lemma default_flattens_fields_witness :
  let ua_types := [("x", "Int32"); ("y", "Int32"); ("x", "Int32")] in
  let attrs := [("x", PyInt 1); ("y", PyInt 2); ("extra", PyNone)] in
  (forall t, In t ua_types -> is_ok (getattr attrs (fst t)) = true)
  /\ exists d, OPCUAEncoder.default (PyStruct ua_types attrs) = Ok (PyDict d)
               /\ List.NoDup (map fst d).
Proof.
  intros ua_types attrs.
  assert (Hall : forall t, In t ua_types -> is_ok (getattr attrs (fst t)) = true).
  { intros t [<-|[<-|[<-|[]]]]; reflexivity. }
  split; [exact Hall|].
  destruct (default_flattens_fields ua_types attrs Hall) as (d & Hd & Hnodup & _).
  exists d. split; [exact Hd|exact Hnodup].
Defined.

(** X12 on a structure without the attribute [y]. *)
Lemma missing_attribute_raises_witness :
  let ua_types := [("x", "Int32"); ("y", "Int32")] in
  let attrs := [("x", PyInt 1)] in
  (exists t, In t ua_types /\ is_ok (getattr attrs (fst t)) = false)
  /\ exists name, encode (PyStruct ua_types attrs) = Raise (AttributeError name).
Proof.
  intros ua_types attrs.
  assert (Hmiss : exists t, In t ua_types /\ is_ok (getattr attrs (fst t)) = false).
  { exists ("y", "Int32"). split; [right; left; reflexivity|reflexivity]. }
  split; [exact Hmiss|].
  destruct (missing_attribute_raises ua_types attrs Hmiss) as (name & _ & Hencode & _).
  exists name. exact Hencode.
Defined.

(** X14 with one subscriber and an integer value. *)
Lemma notification_reaches_every_subscriber_witness :
  let w := snd (subscription_enter (@Hub_init string)) in
  encode (PyInt 7) = Ok (JInt 7) /\ 0 ∈ _subscriptions (hub w)
  /\ fst (datachange_notification (fun _ => "text") "DB1" (PyInt 7) w) = Ok tt.
Proof.
  intros w.
  assert (Hval : encode (PyInt 7) = Ok (JInt 7)) by reflexivity.
  assert (Hin : 0 ∈ _subscriptions (hub w)) by (vm_compute; reflexivity).
  split; [exact Hval|]. split; [exact Hin|].
  exact (proj1 (notification_reaches_every_subscriber (fun _ => "text") "DB1"
                  (PyInt 7) (JInt 7) w 0 Hval Hin)).
Defined.

(** ** The upstream connector *)

Section ConnectorMore.
Variables (server_url monitor_node : string) (retry_delay : Z).

Local Abbreviation iteration := (opcua_iteration server_url monitor_node retry_delay).
Local Abbreviation loop := (opcua_loop server_url monitor_node retry_delay).
Local Abbreviation task := (opcua_task server_url monitor_node retry_delay).

Lemma loop_ending retrying attempts :
  snd (loop retrying attempts) <> Returned
  /\ forall e, snd (loop retrying attempts) = Raised e ->
       exists pre a rest, attempts = pre ++ a :: rest
         /\ Forall (fun a => retryable (raised a) = true) pre
         /\ raised a = e /\ retryable e = false.
Proof.
  revert retrying. induction attempts as [|a attempts IH]; intros retrying; simpl.
  - split; [done|]. intros e He. discriminate He.
  - destruct (retryable (raised a)) eqn:Ha.
    + rewrite iteration_retryable by done. destruct (IH true) as [IH1 IH2].
      destruct (loop true attempts) as [calls e']. simpl in *. split; [done|].
      intros e He. destruct (IH2 e He) as (pre & b & rest & -> & Hpre & Hb & He').
      exists (a :: pre), b, rest. repeat split; try done. by constructor.
    + pose proof (iteration_not_retryable server_url monitor_node retry_delay
                    retrying a Ha) as Hraise.
      destruct (iteration retrying a) as [calls [r|e']]; simpl in *; [discriminate|].
      injection Hraise as ->. split; [done|]. intros e [= <-].
      exists [], a, attempts. repeat split; try done.
Qed.

(** X15. [opcua_task] never returns: whatever the attempts do, it is either
    still in its loop or was left by an error that is not of the network
    and timeout class, raised by an attempt before which every attempt
    failed with an error of that class. *)
Theorem opcua_task_ends_only_by_fatal_error attempts :
  snd (task attempts) <> Returned
  /\ forall e, snd (task attempts) = Raised e ->
       exists pre a rest, attempts = pre ++ a :: rest
         /\ Forall (fun a => retryable (raised a) = true) pre
         /\ raised a = e /\ retryable e = false.
Proof. apply loop_ending. Qed.

Lemma loop_stops retrying pre a rest :
  Forall (fun a => retryable (raised a) = true) pre ->
  retryable (raised a) = false ->
  loop retrying (pre ++ a :: rest) = loop retrying (pre ++ [a]).
Proof.
  intros Hpre Ha. revert retrying.
  induction Hpre as [|b pre Hb _ IH]; intros retrying; simpl.
  - pose proof (iteration_not_retryable server_url monitor_node retry_delay
                  retrying a Ha) as Hraise.
    destruct (iteration retrying a) as [calls [r|e]]; simpl in *; [discriminate|done].
  - rewrite iteration_retryable by done. by rewrite IH.
Qed.

(** X16. The first error outside the network and timeout class ends the
    task: what the later attempts would do changes neither its calls nor
    its ending. After the call that fails, the task only leaves the
    [async with client:] block, which awaits [client.__aexit__] when the
    client had connected, and the trace ends there: no log line, no sleep,
    no new client. The error that ends the task is the one that leaves the
    block. *)
Theorem stops_at_first_fatal_error pre a rest :
  Forall (fun a => retryable (raised a) = true) pre ->
  retryable (raised a) = false ->
  task (pre ++ a :: rest) = task (pre ++ [a])
  /\ snd (task (pre ++ a :: rest)) = Raised (raised a)
  /\ exists before,
       fst (task (pre ++ a :: rest))
       = before ++ NewClient server_url
           :: map (awaited (namespace_index a) monitor_node) (seq 0 (S (completed a)))
           ++ match completed a with 0 => [] | S _ => [Disconnect] end.
Proof.
  intros Hpre Ha.
  assert (Hstop : task (pre ++ a :: rest) = task (pre ++ [a]))
    by (by apply loop_stops).
  rewrite Hstop. split; [done|]. split; [by apply not_retryable_propagates|].
  unfold opcua_task. clear Hstop. generalize false.
  induction Hpre as [|b pre Hb _ IH]; intros retrying; cbn [opcua_loop app].
  - unfold opcua_iteration, attempt_calls. rewrite except_clause, Ha.
    cbn [fst]. by eexists.
  - rewrite iteration_retryable by done. destruct (IH true) as [before Hbefore].
    destruct (loop true (pre ++ [a])) as [calls e]. cbn [fst] in *. rewrite Hbefore.
    eexists. by rewrite app_assoc.
Qed.
End ConnectorMore.

(** X16 on a refused connection followed by a [KeyError] from the look-up
    of the structures node: the client is disconnected on the way out, and
    a third attempt is never made. *)
Lemma stops_at_first_fatal_error_witness :
  let a := Attempt 3 0 (ConnectionRefusedError "refused") in
  let b := Attempt 3 2 (KeyError "SimaticStructures") in
  Forall (fun a => retryable (raised a) = true) [a]
  /\ retryable (raised b) = false
  /\ opcua_task "opc.tcp://plc:4840" "DB1" 5 ([a] ++ b :: [a; a])
     = opcua_task "opc.tcp://plc:4840" "DB1" 5 ([a] ++ [b])
  /\ opcua_task "opc.tcp://plc:4840" "DB1" 5 ([a] ++ [b])
     = ([NewClient "opc.tcp://plc:4840"; Connect;
         LogClientError (ConnectionRefusedError "refused");
         LogRetry 5; Sleep 5;
         NewClient "opc.tcp://plc:4840"; Connect;
         GetNamespaceIndex SIMATIC_NAMESPACE_URI; GetChild 3 "SimaticStructures";
         Disconnect],
        Raised (KeyError "SimaticStructures")).
Proof.
  intros a b.
  assert (Hpre : Forall (fun a => retryable (raised a) = true) [a])
    by (repeat constructor).
  assert (Hb : retryable (raised b) = false) by reflexivity.
  split; [exact Hpre|]. split; [exact Hb|].
  split; [|reflexivity].
  exact (proj1 (stops_at_first_fatal_error "opc.tcp://plc:4840" "DB1" 5
                  [a] b [a; a] Hpre Hb)).
Defined.

(** ** The connection handlers *)

Section HandlerMore.
Implicit Types (items : list string) (events rest : list completion) (n : nat).

Lemma ws_loop_delivered address items events : forall n,
  ws_loop address n (delivered items ++ events)
  = (deliveries n items ++ fst (ws_loop address (n + length items) events),
     snd (ws_loop address (n + length items) events)).
Proof.
  induction items as [|item items IH]; intros n; simpl.
  - rewrite Nat.add_0_r. by destruct (ws_loop address n events).
  - rewrite IH. by rewrite Nat.add_succ_r.
Qed.

Lemma _handler_loop_delivered address from items events : forall n,
  _handler_loop address from n (delivered items ++ events)
  = (deliveries n items ++ fst (_handler_loop address from (n + length items) events),
     snd (_handler_loop address from (n + length items) events)).
Proof.
  induction items as [|item items IH]; intros n; simpl.
  - rewrite Nat.add_0_r. by destruct (_handler_loop address from n events).
  - rewrite IH. by rewrite Nat.add_succ_r.
Qed.

Lemma ws_loop_no_subscription address events : forall n,
  List.filter is_subscribe (fst (ws_loop address n events)) = []
  /\ List.filter is_unsubscribe (fst (ws_loop address n events)) = [].
Proof.
  induction events as [|ev events IH]; intros n; [done|].
  destruct ev as [item [e|]| |item [e|] [|]|]; simpl; try done.
  specialize (IH (S n)). by destruct (ws_loop address (S n) events).
Qed.

Lemma _handler_loop_no_subscription address from events : forall n,
  List.filter is_subscribe (fst (_handler_loop address from n events)) = []
  /\ List.filter is_unsubscribe (fst (_handler_loop address from n events)) = [].
Proof.
  induction events as [|ev events IH]; intros n; [done|].
  destruct ev as [item [e|]| |item [e|] [|]|]; simpl; try done.
  specialize (IH (S n)). by destruct (_handler_loop address from (S n) events).
Qed.

(** X17. On every run of [websockets_handler], whatever the events: it
    subscribes exactly once; while it is suspended in its loop it has not
    unsubscribed; once it has ended, by return or by any exception, it has
    unsubscribed exactly once, as its last call. *)
Theorem websockets_handler_unsubscribes_on_exit ws events :
  let r := websockets_handler ws events in
  List.filter is_subscribe (fst r) = [Subscribe]
  /\ (snd r = Suspended -> List.filter is_unsubscribe (fst r) = [])
  /\ (snd r <> Suspended ->
      List.filter is_unsubscribe (fst r) = [Unsubscribe]
      /\ exists before, fst r = before ++ [Unsubscribe]).
Proof.
  unfold websockets_handler, with_subscription.
  destruct (ws_loop_no_subscription (fst (remote_address ws)) events 0) as [Hs Hu].
  destruct (ws_loop (fst (remote_address ws)) 0 events) as [calls e]. simpl in *.
  destruct e as [| |e]; simpl; rewrite ?List.filter_app, ?Hs, ?Hu; simpl.
  - repeat split; done.
  - repeat split; try done. by eexists (_ :: _ :: _ :: _ :: calls).
  - repeat split; try done. by eexists (_ :: _ :: _ :: _ :: calls).
Qed.

(** The same for [_handler], with the scoped subscription of the
    specification: one subscription, no unsubscription
    while it is suspended, exactly one, as the last call, once it has
    ended in any way. *)
Theorem _handler_unsubscribes_on_exit ws events :
  let r := _handler ws events in
  List.filter is_subscribe (fst r) = [Subscribe]
  /\ (snd r = Suspended -> List.filter is_unsubscribe (fst r) = [])
  /\ (snd r <> Suspended ->
      List.filter is_unsubscribe (fst r) = [Unsubscribe]
      /\ exists before, fst r = before ++ [Unsubscribe]).
Proof.
  unfold _handler, with_hub_subscribe. destruct (get_client_address ws) as [address from].
  destruct (_handler_loop_no_subscription address from events 0) as [Hs Hu].
  destruct (_handler_loop address from 0 events) as [calls e]. simpl in *.
  destruct e as [| |e]; simpl; rewrite ?List.filter_app, ?Hs, ?Hu; simpl.
  - repeat split; done.
  - repeat split; try done. by eexists (_ :: _ :: _ :: _ :: calls).
  - repeat split; try done. by eexists (_ :: _ :: _ :: _ :: calls).
Qed.

Lemma loops_end_alike address address' from events : forall n,
  (exists items rest, events = delivered items ++ CloseDone :: rest)
  \/ snd (ws_loop address n events) = snd (_handler_loop address' from n events).
Proof.
  induction events as [|ev events IH]; intros n; [by right|].
  destruct ev as [item [e|]| |item [e|] [|]|]; simpl; try (by right).
  - destruct (IH (S n)) as [(items & rest & ->)|Hsame].
    + left. by exists (item :: items), rest.
    + right. destruct (ws_loop address (S n) events),
        (_handler_loop address' from (S n) events). done.
  - left. by exists [], events.
Qed.

(** X18. The two handlers compared on every sequence of events: they make
    the same calls but for their log lines, and they end in the same way
    unless the connection closes while a [get] is pending after a run of
    deliveries, where [websockets_handler] is left by the cancellation and
    [_handler] returns. *)
Theorem handlers_end_alike_but_on_close ws events :
  effects (fst (websockets_handler ws events)) = effects (fst (_handler ws events))
  /\ ((exists items rest, events = delivered items ++ CloseDone :: rest
         /\ snd (websockets_handler ws events) = Raised (asyncio_CancelledError EmptyString)
         /\ snd (_handler ws events) = Returned)
      \/ snd (websockets_handler ws events) = snd (_handler ws events)).
Proof.
  split; [apply handlers_same_effects|].
  unfold websockets_handler, _handler.
  destruct (get_client_address ws) as [address from] eqn:Haddr.
  destruct (loops_end_alike (fst (remote_address ws)) address from events 0)
    as [(items & rest & ->)|Hsame].
  - left. exists items, rest. split; [done|].
    rewrite ws_loop_close, _handler_loop_close. done.
  - right. destruct (ws_loop (fst (remote_address ws)) 0 events) as [calls1 e1].
    destruct (_handler_loop address from 0 events) as [calls2 e2].
    simpl in Hsame. subst e2. unfold with_subscription, with_hub_subscribe.
    by destruct e1.
Qed.

(** X19. [_handler] when the connection closes while a [get] is pending,
    after any number of deliveries: it sends what was delivered, cancels
    that [get], awaits it, swallows its cancellation and unsubscribes, each
    once and as its last three calls, and returns normally. *)
Theorem _handler_returns_after_close ws items rest :
  let r := _handler ws (delivered items ++ CloseDone :: rest) in
  let pending := task_msg_wait (length items) in
  List.filter is_send (fst r) = map Send items
  /\ List.filter is_cancel (fst r) = [Cancel pending]
  /\ List.filter is_await (fst r) = [Await pending]
  /\ (exists before, fst r = before ++ [Cancel pending; Await pending; Unsubscribe])
  /\ snd r = Returned.
Proof.
  intros r pending. unfold r. rewrite _handler_close. simpl.
  rewrite !List.filter_app, !filter_deliveries by done. simpl.
  rewrite filter_sends_all, !filter_sends_none by done. simpl.
  rewrite app_nil_r. repeat split.
  eexists (_ :: _ :: _ :: _ :: deliveries 0 items ++ [_; _]).
  simpl. by rewrite <- app_assoc.
Qed.

(** X20. When the message and the close of the connection complete in the
    same wait and the send succeeds, both handlers send the message, start
    one more [get] and return without ever cancelling it: no task is
    cancelled on this path, in either order of the [for] loop. *)
Theorem close_with_message_leaves_get_pending ws items m msg_first rest :
  let events := delivered items ++ BothDone m None msg_first :: rest in
  let started := CreateTask (task_msg_wait (S (length items))) in
  (snd (websockets_handler ws events) = Returned
   /\ In started (fst (websockets_handler ws events))
   /\ List.filter is_cancel (fst (websockets_handler ws events)) = []
   /\ List.filter is_send (fst (websockets_handler ws events)) = map Send (items ++ [m]))
  /\ (snd (_handler ws events) = Returned
      /\ In started (fst (_handler ws events))
      /\ List.filter is_cancel (fst (_handler ws events)) = []
      /\ List.filter is_send (fst (_handler ws events)) = map Send (items ++ [m])).
Proof.
  intros events started. unfold events, started, websockets_handler, _handler.
  destruct (get_client_address ws) as [address from].
  rewrite ws_loop_delivered, _handler_loop_delivered.
  unfold with_subscription, with_hub_subscribe.
  destruct msg_first; simpl;
    rewrite ?List.filter_app, ?filter_deliveries by done; simpl;
    rewrite ?List.filter_app, ?filter_sends_all, ?filter_sends_none by done; simpl;
    rewrite ?map_app, ?app_nil_r; simpl;
    (repeat split; try done;
     do 4 right; rewrite !in_app_iff; simpl; tauto).
Qed.

(** X21. A send that fails ends both handlers with the exception of the
    send, after the unsubscription: the message was handed to the
    connection once, no further [get] is started and nothing is
    cancelled or retried. *)
Theorem send_failure_ends_handler ws items m e rest :
  let events := delivered items ++ MsgDone m (Some e) :: rest in
  (snd (websockets_handler ws events) = Raised e
   /\ List.filter is_send (fst (websockets_handler ws events)) = map Send (items ++ [m])
   /\ List.filter is_cancel (fst (websockets_handler ws events)) = []
   /\ ~ In (CreateTask (task_msg_wait (S (length items))))
          (fst (websockets_handler ws events)))
  /\ (snd (_handler ws events) = Raised e
      /\ List.filter is_send (fst (_handler ws events)) = map Send (items ++ [m])
      /\ List.filter is_cancel (fst (_handler ws events)) = []
      /\ ~ In (CreateTask (task_msg_wait (S (length items))))
             (fst (_handler ws events))).
Proof.
  assert (Hnot : forall n, ~ In (CreateTask (task_msg_wait (S (n + length items))))
                             (deliveries n items)).
  { induction items as [|item items IH]; intros n; simpl; [tauto|].
    intros [Hw|[Hs|[Hc|Hin]]]; try discriminate.
    - injection Hc. lia.
    - rewrite Nat.add_succ_r in Hin. exact (IH (S n) Hin). }
  intros events. unfold events, websockets_handler, _handler.
  destruct (get_client_address ws) as [address from].
  rewrite ws_loop_delivered, _handler_loop_delivered.
  unfold with_subscription, with_hub_subscribe. simpl.
  rewrite ?List.filter_app, ?filter_deliveries by done. simpl.
  rewrite ?List.filter_app, ?filter_sends_all, ?filter_sends_none by done. simpl.
  rewrite ?map_app, ?app_nil_r. simpl.
  repeat split; try done;
    (intros [Hl|[Hs|[Hc|[Hc|Hin]]]]; try discriminate;
     rewrite !in_app_iff in Hin; simpl in Hin;
     destruct Hin as [[Hin|[Hin|[Hin|[]]]]|[Hin|[]]]; try discriminate;
     exact (Hnot 0 Hin)).
Qed.
End HandlerMore.

(** ** The shutdown coordinator *)

(** X22. When every cancelled task ends by acknowledging its cancellation
    or by returning, [shutdown] logs no error: after the line for the
    signal, if any, it cancels the tasks, waits for them and stops the
    loop. *)
Theorem clean_shutdown_logs_no_error sig tasks outcome :
  (forall t, In t tasks ->
     (exists v, outcome t = Value v)
     \/ (exists e, outcome t = Exception e
                   /\ isinstance e "asyncio.CancelledError" = true)) ->
  shutdown sig tasks outcome
  = match sig with Some name => [LogSignal name] | None => [] end
    ++ map CancelTask tasks ++ [LogWaiting (length tasks); Gather tasks; LoopStop].
Proof.
  intros Hclean. unfold shutdown.
  assert (Hnone : List.filter is_shutdown_error (map outcome tasks) = []).
  { induction tasks as [|t ts IH]; simpl; [done|].
    rewrite IH by (intros t' Ht'; apply Hclean; by right).
    destruct (Hclean t) as [[v ->]|(e & -> & He)]; [by left|done|].
    simpl. by rewrite He. }
  by rewrite Hnone.
Qed.

(** X22 on a handler and the connector, both cancelled on SIGINT. *)
Lemma clean_shutdown_logs_no_error_witness :
  let outcome := fun _ : nat => Exception (asyncio_CancelledError EmptyString) in
  (forall t, In t [1; 2] ->
     (exists v, outcome t = Value v)
     \/ (exists e, outcome t = Exception e
                   /\ isinstance e "asyncio.CancelledError" = true))
  /\ shutdown (Some "SIGINT") [1; 2] outcome
     = [LogSignal "SIGINT"; CancelTask 1; CancelTask 2; LogWaiting 2; Gather [1; 2];
        LoopStop].
Proof.
  intros outcome.
  assert (Hclean : forall t, In t [1; 2] ->
            (exists v, outcome t = Value v)
            \/ (exists e, outcome t = Exception e
                          /\ isinstance e "asyncio.CancelledError" = true)).
  { intros t _. right. eexists. split; reflexivity. }
  split; [exact Hclean|].
  exact (clean_shutdown_logs_no_error (Some "SIGINT") [1; 2] outcome Hclean).
Defined.
